(** * PseudoTransport: an in-process bridge between an MCP client and an McpServer

    Shallow embedding of [src/client/pseudo.ts].  The class keeps six mutable
    fields; its methods and the methods of the proxy object built by [start]
    read and write them, and defer every delivery with [setTimeout(..., 0)].
    The embedding threads a [World] explicitly: the instance fields, the FIFO
    queue of timer callbacks, the FIFO queue of microtasks ([await]
    continuations and promise jobs), the settlement of every promise handed
    out, and a log of what the environment observed (handler invocations,
    console warnings, uncaught exceptions).

    What stands for the environment:
    - a callback is a function reference and a body; a body makes calls into
      the transport or the proxy, in a fixed order that depends on its
      argument only, and then returns or throws;
    - the responder's [connect] is an [async] function that does not wait for
      anything: it makes calls on the proxy and returns a promise that is
      settled when the call returns.  A [connect] that throws instead of
      returning a promise is not covered: [start] would then run its [catch]
      block, and with it the client's error handler, before returning;
    - a value that is thrown has a string conversion: a handler that throws
      an object for which [String(...)] itself throws is not covered;
    - the proxy's own [onerror] and [onclose] properties, which the class
      never reads, are left out;
    - an [Error] is its name and its message;
    - an exception that escapes a timer callback is logged and the event
      loop goes on. *)

From Stdlib Require Import List String ZArith Bool Arith Lia DecimalString DecimalPos.
Import ListNotations.
Local Open Scope string_scope.
Local Open Scope list_scope.
Set Warnings "-register-all".

(** ** JavaScript values that cross the bridge *)

Module Js.

(** [Number.MAX_SAFE_INTEGER], 2^53 - 1. *)
Definition MAX_SAFE_INTEGER : Z := 9007199254740991%Z.

(** [Number.isSafeInteger(n)] for an integer [n]. *)
Definition isSafeInteger (n : Z) : bool :=
  (Z.leb (- MAX_SAFE_INTEGER) n && Z.leb n MAX_SAFE_INTEGER)%bool.

(** An integer that a JavaScript number holds exactly. *)
Record SafeInteger : Type := mkSafeInteger {
  integer : Z;
  integer_is_safe : isSafeInteger integer = true
}.

(** JSON-like values.  A number is a safe integer (no fraction, no exponent,
    no [NaN], no infinity, no negative zero).  An object is a plain object,
    with [Object.prototype] as its prototype, given by its own data
    properties, none of which holds a function; where a key is listed twice
    the first entry counts. *)
Inductive Value : Type :=
| Undefined
| Null
| Boolean (b : bool)
| Number (n : SafeInteger)
| Str (s : string)
| Array (elems : list Value)
| Object (fields : list (string * Value)).

(** An instance of [Error]: its [name] and its [message]. *)
Record Error : Type := mkError { error_name : string; error_message : string }.

(** [new Error(msg)] *)
Definition new_Error (msg : string) : Error := mkError "Error" msg.

(** [o.k] for a key [k] that [Object.prototype] does not define (as [id],
    [method] and [params]): the own property, [undefined] when absent. *)
Fixpoint get (k : string) (fields : list (string * Value)) : Value :=
  match fields with
  | [] => Undefined
  | (k', v) :: rest => if String.eqb k k' then v else get k rest
  end.

(** [Object.hasOwn(o, k)]; for a key that [Object.prototype] does not define
    this is [k in o]. *)
Fixpoint has (k : string) (fields : list (string * Value)) : bool :=
  match fields with
  | [] => false
  | (k', _) :: rest => String.eqb k k' || has k rest
  end.

(** The decimal digits of an integer, with a minus sign when negative. *)
Definition decimal (n : Z) : string := NilZero.string_of_int (Z.to_int n).

(** [l.join(sep)] on strings. *)
Fixpoint join (sep : string) (l : list string) : string :=
  match l with
  | [] => ""
  | [s] => s
  | s :: rest => (s ++ sep ++ join sep rest)%string
  end.

(** [String(v)] on the values above; [None] where the conversion throws a
    [TypeError].  A safe integer prints in decimal (the exponent form starts
    at 1e21).  An array joins the conversions of its elements with a comma,
    with the empty string for [null] and [undefined].  A plain object prints
    as [[object Object]] through [Object.prototype.toString]; when it has an
    own [toString] property, which holds no function here, neither it nor
    [Object.prototype.valueOf] yields a primitive and the conversion throws. *)
Fixpoint String_ (v : Value) : option string :=
  match v with
  | Undefined => Some "undefined"
  | Null => Some "null"
  | Boolean true => Some "true"
  | Boolean false => Some "false"
  | Number n => Some (decimal (integer n))
  | Str s => Some s
  | Array elems =>
      option_map (join ",")
        ((fix texts (l : list Value) : option (list string) :=
            match l with
            | [] => Some []
            | e :: rest =>
                match match e with
                      | Undefined | Null => Some ""
                      | _ => String_ e
                      end, texts rest with
                | Some s, Some ss => Some (s :: ss)
                | _, _ => None
                end
            end) elems)
  | Object fields => if has "toString" fields then None else Some "[object Object]"
  end.



(** Anything a [throw] statement or a promise rejection can carry: an
    instance of [Error], or another value [v] together with [String(v)]. *)
Inductive Thrown : Type :=
| ThrownError (e : Error)
| ThrownValue (v : Value) (text : string) (conversion : String_ v = Some text).

(** [error instanceof Error] *)
Definition instanceof_Error (t : Thrown) : bool :=
  match t with ThrownError _ => true | ThrownValue _ _ _ => false end.

End Js.

(** A [JSONRPCMessage] is always an object; the bridge never looks inside. *)
Definition JSONRPCMessage : Type := list (string * Js.Value).

(** ** Handlers and what they may do *)

(** How a synchronous function body ends. *)
Inductive Completion : Type :=
| Returns
| Throws (t : Js.Thrown).

(** A callback: a function reference (compared by [handler_id], as JavaScript
    compares functions by identity) and a body.  A body is a straight line of
    calls into the transport API followed by a normal return or a [throw]. *)
Record Handler (C A : Type) : Type := mkHandler {
  handler_id : nat;
  handler_body : A -> list C * Completion
}.
Arguments mkHandler {C A} _ _.
Arguments handler_id {C A} _.
Arguments handler_body {C A} _ _.

(** Calls available on the proxy handed to [McpServer.connect], and calls
    available on the [PseudoTransport] itself. *)
Inductive ProxyCall : Type :=
| ProxySetOnMessage (h : option (Handler Call JSONRPCMessage))
| ProxySend (m : JSONRPCMessage)
| ProxyStart
| ProxyClose
with Call : Type :=
| OnProxy (p : ProxyCall)
| SetOnMessage (h : option (Handler Call JSONRPCMessage))
| SetOnError (h : option (Handler Call Js.Error))
| SetOnClose (h : option (Handler Call unit))
| CallStart
| CallClose
| CallSend (m : JSONRPCMessage).

Definition MessageHandler : Type := Handler Call JSONRPCMessage.
Definition ErrorHandler : Type := Handler Call Js.Error.
Definition CloseHandler : Type := Handler Call unit.

(** The responder.  [connect] is an [async] method that does not suspend:
    the calls it makes on the proxy, and how the promise it returns is
    settled, [Returns] for fulfilled and [Throws t] for rejected with [t].
    Its failure thus reaches [start] at the [await], never as an exception
    of the call itself. *)
Record McpServer : Type := mkServer {
  connect_calls : list ProxyCall;
  connect_result : Completion
}.

(** ** The instance and the world around it *)

(** The private fields of the class, under their own names. *)
Record PseudoTransport : Type := mkTransport {
  _started : bool;
  _mcpServer : McpServer;
  _isServerConnected : bool;
  _clientMessageHandler : option MessageHandler;
  _clientErrorHandler : option ErrorHandler;
  _clientCloseHandler : option CloseHandler;
  _serverMessageHandler : option MessageHandler
}.

Inductive Settlement : Type :=
| Fulfilled
| Rejected (reason : Js.Thrown).

(** Callbacks handed to [setTimeout(..., 0)], with what each closure captured.
    [StartRecheck] is the [resolve] of the one-tick pause in [start] together
    with the rest of the method, which resumes right behind it. *)
Inductive Timer : Type :=
| DeliverToClient (m : JSONRPCMessage)
| StartRecheck (p : nat)
| CloseNotify (h : option CloseHandler)
| DeliverToServer (h : MessageHandler) (m : JSONRPCMessage) (p : nat).

(** The continuation of [start] suspended at [await this._mcpServer.connect(...)]. *)
Inductive Microtask : Type :=
| AfterConnect (p : nat) (r : Completion).

(** A job of the microtask queue: the continuation of an [await], or one of
    the two jobs by which promise [p], resolved with a promise that is
    already fulfilled, becomes fulfilled itself.  [ResolveThenable] calls
    [then] on the inner promise, which queues [FulfilThenable]; that one
    fulfils [p]. *)
Inductive Job : Type :=
| Continuation (k : Microtask)
| ResolveThenable (p : nat)
| FulfilThenable (p : nat).

(** What the environment observes. *)
Inductive Event : Type :=
| ServerReceived (h : nat) (m : JSONRPCMessage)
| ClientReceived (h : nat) (m : JSONRPCMessage)
| ClientError (h : nat) (e : Js.Error)
| ClientClosed (h : nat)
| ConsoleWarn (text : string)
| Uncaught (t : Js.Thrown).

Record World : Type := mkWorld {
  transport : PseudoTransport;
  timers : list Timer;
  jobs : list Job;
  promises : list (nat * Settlement);
  next_promise : nat;
  log : list Event
}.

Fixpoint continuations (l : list Job) : list Microtask :=
  match l with
  | [] => []
  | Continuation k :: rest => k :: continuations rest
  | _ :: rest => continuations rest
  end.

(** The suspended [await]s, in the order they will resume. *)
Definition microtasks (w : World) : list Microtask := continuations (jobs w).

(** The promises that queued promise jobs are about to fulfil. *)
Fixpoint thenables (l : list Job) : list nat :=
  match l with
  | [] => []
  | Continuation _ :: rest => thenables rest
  | ResolveThenable p :: rest => p :: thenables rest
  | FulfilThenable p :: rest => p :: thenables rest
  end.

(** Field updates, one per assignment in the source. *)

Definition with_started (b : bool) (t : PseudoTransport) : PseudoTransport :=
  mkTransport b (_mcpServer t) (_isServerConnected t) (_clientMessageHandler t)
    (_clientErrorHandler t) (_clientCloseHandler t) (_serverMessageHandler t).

Definition with_isServerConnected (b : bool) (t : PseudoTransport) : PseudoTransport :=
  mkTransport (_started t) (_mcpServer t) b (_clientMessageHandler t)
    (_clientErrorHandler t) (_clientCloseHandler t) (_serverMessageHandler t).

Definition with_clientMessageHandler (h : option MessageHandler) (t : PseudoTransport)
  : PseudoTransport :=
  mkTransport (_started t) (_mcpServer t) (_isServerConnected t) h
    (_clientErrorHandler t) (_clientCloseHandler t) (_serverMessageHandler t).

Definition with_clientErrorHandler (h : option ErrorHandler) (t : PseudoTransport)
  : PseudoTransport :=
  mkTransport (_started t) (_mcpServer t) (_isServerConnected t) (_clientMessageHandler t)
    h (_clientCloseHandler t) (_serverMessageHandler t).

Definition with_clientCloseHandler (h : option CloseHandler) (t : PseudoTransport)
  : PseudoTransport :=
  mkTransport (_started t) (_mcpServer t) (_isServerConnected t) (_clientMessageHandler t)
    (_clientErrorHandler t) h (_serverMessageHandler t).

Definition with_serverMessageHandler (h : option MessageHandler) (t : PseudoTransport)
  : PseudoTransport :=
  mkTransport (_started t) (_mcpServer t) (_isServerConnected t) (_clientMessageHandler t)
    (_clientErrorHandler t) (_clientCloseHandler t) h.

(** [this.f = ...] *)
Definition assign (f : PseudoTransport -> PseudoTransport) (w : World) : World :=
  mkWorld (f (transport w)) (timers w) (jobs w) (promises w) (next_promise w) (log w).

(** [setTimeout(callback, 0)]: the callback joins the back of the queue. *)
Definition setTimeout (t : Timer) (w : World) : World :=
  mkWorld (transport w) (timers w ++ [t]) (jobs w) (promises w) (next_promise w) (log w).

(** A job joins the back of the microtask queue. *)
Definition enqueue (j : Job) (w : World) : World :=
  mkWorld (transport w) (timers w) (jobs w ++ [j]) (promises w) (next_promise w) (log w).

(** Suspension at an [await] whose operand is settled already. *)
Definition await (k : Microtask) (w : World) : World := enqueue (Continuation k) w.

(** [return Promise.resolve()] in an [async] function whose promise is [p]:
    [p] is resolved with a promise that is already fulfilled.  [p] is still
    pending; the job that will call [then] on the inner promise is queued. *)
Definition return_resolved_promise (p : nat) (w : World) : World :=
  enqueue (ResolveThenable p) w.

(** A new pending promise. *)
Definition new_promise (w : World) : nat * World :=
  (next_promise w,
   mkWorld (transport w) (timers w) (jobs w) (promises w) (S (next_promise w)) (log w)).

(** [resolve()] or [reject(reason)].  Settlements are kept in the order they
    happen, and [settlement] reads the earliest: a promise settles once. *)
Definition settle (p : nat) (s : Settlement) (w : World) : World :=
  mkWorld (transport w) (timers w) (jobs w) (promises w ++ [(p, s)])
    (next_promise w) (log w).

Definition emit (e : Event) (w : World) : World :=
  mkWorld (transport w) (timers w) (jobs w) (promises w) (next_promise w) (log w ++ [e]).

Definition pop_timer (rest : list Timer) (w : World) : World :=
  mkWorld (transport w) rest (jobs w) (promises w) (next_promise w) (log w).

Definition pop_job (rest : list Job) (w : World) : World :=
  mkWorld (transport w) (timers w) rest (promises w) (next_promise w) (log w).

Fixpoint lookup_settlement (p : nat) (l : list (nat * Settlement)) : option Settlement :=
  match l with
  | [] => None
  | (q, s) :: rest => if Nat.eqb p q then Some s else lookup_settlement p rest
  end.

(** The state of promise [p]: [None] while pending. *)
Definition settlement (p : nat) (w : World) : option Settlement :=
  lookup_settlement p (promises w).

(** ** Error values built by the class *)

Definition InvalidArgument : Js.Error :=
  Js.new_Error "McpServer instance is required for PseudoTransport.".
Definition AlreadyStarted : Js.Error :=
  Js.new_Error "PseudoTransport already started!".
Definition NotStarted : Js.Error :=
  Js.new_Error "PseudoTransport is not started.".
Definition PeerUnavailable : Js.Error :=
  Js.new_Error "PseudoTransport: McpServer handler not available or server not connected.".

(** [error instanceof Error ? error : new Error(String(error))], the expression
    in both deferred deliveries. *)
Definition delivery_error (t : Js.Thrown) : Js.Error :=
  match t with
  | Js.ThrownError e => e
  | Js.ThrownValue _ text _ => Js.new_Error text
  end.

(** [error instanceof Error ? error : new Error("Failed to connect internal McpServer")],
    the expression in the [catch] of [start]. *)
Definition connect_error (t : Js.Thrown) : Js.Error :=
  match t with
  | Js.ThrownError e => e
  | Js.ThrownValue _ _ _ => Js.new_Error "Failed to connect internal McpServer"
  end.

(** Calling [self._clientMessageHandler!(message)] when the slot holds
    [undefined] throws a [TypeError]. *)
Definition not_a_function : Js.Error :=
  Js.mkError "TypeError" "self._clientMessageHandler is not a function".

(** ** The constructor and the handler properties *)

(** [new PseudoTransport(mcpServer)]; [None] stands for a missing argument. *)
Definition new_PseudoTransport (mcpServer : option McpServer) : Js.Error + PseudoTransport :=
  match mcpServer with
  | None => inl InvalidArgument
  | Some s => inr (mkTransport false s false None None None None)
  end.

(** The turn in which the instance is created: nothing queued, nothing logged. *)
Definition boot (t : PseudoTransport) : World := mkWorld t [] [] [] 0 [].

Definition set_onmessage (h : option MessageHandler) : World -> World :=
  assign (with_clientMessageHandler h).
Definition get_onmessage (w : World) : option MessageHandler :=
  _clientMessageHandler (transport w).

Definition set_onerror (h : option ErrorHandler) : World -> World :=
  assign (with_clientErrorHandler h).
Definition get_onerror (w : World) : option ErrorHandler :=
  _clientErrorHandler (transport w).

Definition set_onclose (h : option CloseHandler) : World -> World :=
  assign (with_clientCloseHandler h).
Definition get_onclose (w : World) : option CloseHandler :=
  _clientCloseHandler (transport w).

(** ** The proxy handed to the responder ([serverFacingTransportProxy]) *)

Module Proxy.

(** [set onmessage(handler)] *)
Definition set_onmessage (h : option MessageHandler) (w : World) : World :=
  let w := assign (with_serverMessageHandler h) w in
  match h with
  | Some _ => assign (with_isServerConnected true) w
  | None => assign (with_isServerConnected false) w
  end.

Definition get_onmessage (w : World) : option MessageHandler :=
  _serverMessageHandler (transport w).

(** [send]: an [async] arrow function whose body never throws, so the
    promise it returns is fulfilled when the call returns. *)
Definition send (m : JSONRPCMessage) (w : World) : nat * World :=
  let (p, w) := new_promise w in
  let w := match _clientMessageHandler (transport w) with
           | Some _ => setTimeout (DeliverToClient m) w
           | None => w
           end in
  (p, settle p Fulfilled w).

(** [start]: empty body. *)
Definition start (w : World) : nat * World :=
  let (p, w) := new_promise w in
  (p, settle p Fulfilled w).

(** [close] *)
Definition close (w : World) : nat * World :=
  let (p, w) := new_promise w in
  let w := assign (with_isServerConnected false) w in
  (p, settle p Fulfilled w).

Definition exec (c : ProxyCall) (w : World) : World :=
  match c with
  | ProxySetOnMessage h => set_onmessage h w
  | ProxySend m => snd (send m w)
  | ProxyStart => snd (start w)
  | ProxyClose => snd (close w)
  end.

Definition run (cs : list ProxyCall) (w : World) : World :=
  fold_left (fun w c => exec c w) cs w.

End Proxy.

(** ** The methods of the class *)

(** [start], up to its first suspension.  The responder's [connect] runs
    inside the call and returns a settled promise; the [await] on it queues
    the rest of the method as a microtask. *)
Definition start (w : World) : nat * World :=
  let (p, w) := new_promise w in
  if _started (transport w) then
    (p, settle p (Rejected (Js.ThrownError AlreadyStarted)) w)
  else
    let server := _mcpServer (transport w) in
    let w := Proxy.run (connect_calls server) w in
    (p, await (AfterConnect p (connect_result server)) w).

(** [close].  Both exits are [return Promise.resolve()] in an [async]
    method: the promise handed to the caller is pending when the call
    returns and is fulfilled two promise jobs later. *)
Definition close (w : World) : nat * World :=
  let (p, w) := new_promise w in
  if negb (_started (transport w)) then
    (p, return_resolved_promise p w)
  else
    let w := assign (with_started false) w in
    let w := assign (with_isServerConnected false) w in
    let clientCloseHandler := _clientCloseHandler (transport w) in
    let w := assign (with_serverMessageHandler None) w in
    let w := assign (with_clientMessageHandler None) w in
    let w := assign (with_clientErrorHandler None) w in
    let w := assign (with_clientCloseHandler None) w in
    let w := setTimeout (CloseNotify clientCloseHandler) w in
    (p, return_resolved_promise p w).

(** [send]; not an [async] method: the promise it builds is the one the
    caller gets. *)
Definition send (message : JSONRPCMessage) (w : World) : nat * World :=
  let (p, w) := new_promise w in
  if negb (_started (transport w)) then
    (p, settle p (Rejected (Js.ThrownError NotStarted)) w)
  else
    match _serverMessageHandler (transport w), _isServerConnected (transport w) with
    | Some serverHandler, true =>
        (p, setTimeout (DeliverToServer serverHandler message p) w)
    | _, _ =>
        (p, settle p (Rejected (Js.ThrownError PeerUnavailable)) w)
    end.

(** ** Running handler bodies *)

Definition exec (c : Call) (w : World) : World :=
  match c with
  | OnProxy pc => Proxy.exec pc w
  | SetOnMessage h => set_onmessage h w
  | SetOnError h => set_onerror h w
  | SetOnClose h => set_onclose h w
  | CallStart => snd (start w)
  | CallClose => snd (close w)
  | CallSend m => snd (send m w)
  end.

Definition run_calls (cs : list Call) (w : World) : World :=
  fold_left (fun w c => exec c w) cs w.

(** Calling [h(a)]: the call is logged, the body's calls run in order, and the
    caller learns whether the body returned or threw. *)
Definition invoke {A : Type} (ev : nat -> A -> Event) (h : Handler Call A) (a : A)
    (w : World) : World * Completion :=
  let (cs, c) := handler_body h a in
  (run_calls cs (emit (ev (handler_id h) a) w), c).

(** [this._clientErrorHandler?.(err)] *)
Definition report_error (err : Js.Error) (w : World) : World * Completion :=
  match _clientErrorHandler (transport w) with
  | Some h => invoke ClientError h err w
  | None => (w, Returns)
  end.

(** ** Deferred work *)

Definition closed_event (id : nat) (_ : unit) : Event := ClientClosed id.

(** A timer callback; an exception that escapes it is uncaught. *)
Definition run_timer (t : Timer) (w : World) : World :=
  match t with
  | DeliverToClient m =>
      let (w, c) :=
        match _clientMessageHandler (transport w) with
        | Some h => invoke ClientReceived h m w
        | None => (w, Throws (Js.ThrownError not_a_function))
        end in
      match c with
      | Returns => w
      | Throws error =>
          let (w, c) := report_error (delivery_error error) w in
          match c with
          | Returns => w
          | Throws t => emit (Uncaught t) w
          end
      end
  | StartRecheck p =>
      let w :=
        match _serverMessageHandler (transport w) with
        | None => emit (ConsoleWarn "[PseudoTransport] McpServer did NOT set a message handler after connect completed. Client requests might fail.") w
        | Some _ => w
        end in
      settle p Fulfilled (assign (with_started true) w)
  | CloseNotify h =>
      match h with
      | Some h =>
          let (w, c) := invoke closed_event h tt w in
          match c with
          | Returns => w
          | Throws t => emit (Uncaught t) w
          end
      | None => w
      end
  | DeliverToServer serverHandler m p =>
      let (w, c) := invoke ServerReceived serverHandler m w in
      match c with
      | Returns => settle p Fulfilled w
      | Throws error =>
          let err := delivery_error error in
          let (w, c) := report_error err w in
          match c with
          | Returns => settle p (Rejected (Js.ThrownError err)) w
          | Throws t => emit (Uncaught t) w
          end
      end
  end.

(** The rest of [start] after [await this._mcpServer.connect(...)]. *)
Definition run_microtask (k : Microtask) (w : World) : World :=
  match k with
  | AfterConnect p Returns =>
      match _serverMessageHandler (transport w) with
      | Some _ => settle p Fulfilled (assign (with_started true) w)
      | None => setTimeout (StartRecheck p) w
      end
  | AfterConnect p (Throws error) =>
      let err := connect_error error in
      let (w, c) := report_error err w in
      match c with
      | Returns => settle p (Rejected (Js.ThrownError err)) (assign (with_started false) w)
      | Throws t => settle p (Rejected t) w
      end
  end.

(** One job of the microtask queue. *)
Definition run_job (j : Job) (w : World) : World :=
  match j with
  | Continuation k => run_microtask k w
  | ResolveThenable p => enqueue (FulfilThenable p) w
  | FulfilThenable p => settle p Fulfilled w
  end.

Definition is_promise_job (j : Job) : bool :=
  match j with
  | Continuation _ => false
  | _ => true
  end.

(** The promise jobs at the front of the microtask queue, run in order up to
    the first continuation. *)
Fixpoint run_promise_jobs (fuel : nat) (w : World) : World :=
  match fuel with
  | O => w
  | S fuel' =>
      match jobs w with
      | j :: rest =>
          if is_promise_job j then run_promise_jobs fuel' (run_job j (pop_job rest w))
          else w
      | [] => w
      end
  end.

(** All of them.  Twice the length of the queue is fuel enough: a
    [ResolveThenable] queues one [FulfilThenable], which queues nothing. *)
Definition promise_jobs (w : World) : World := run_promise_jobs (2 * List.length (jobs w)) w.

(** One turn of the event loop.  Microtasks run first in, first out, and
    before the next timer: a turn runs the promise jobs at the front of the
    queue and the continuation behind them; when the microtask queue has run
    empty, it runs the next timer callback. *)
Definition step (w : World) : option World :=
  let w' := promise_jobs w in
  match jobs w' with
  | j :: rest => Some (run_job j (pop_job rest w'))
  | [] =>
      match timers w' with
      | t :: rest => Some (run_timer t (pop_timer rest w'))
      | [] =>
          match jobs w with
          | [] => None
          | _ :: _ => Some w'
          end
      end
  end.

(** [n] turns, stopping early when nothing is queued. *)
Fixpoint turns (n : nat) (w : World) : World :=
  match n with
  | O => w
  | S n' => match step w with
            | Some w' => turns n' w'
            | None => w
            end
  end.

(** No timer callback and no continuation is pending; promise jobs may be. *)
Definition idle (w : World) : Prop := timers w = [] /\ microtasks w = [].

(** ** The responders and handlers of [pseudo.test.ts] *)

Module Test.

(** The handler installed by the mock server's [connect]: a request (a
    message with an [id] and a [method]) is answered through the proxy. *)
Definition echo_response (msg : JSONRPCMessage) : JSONRPCMessage :=
  [("jsonrpc", Js.Str "2.0");
   ("id", Js.get "id" msg);
   ("result", Js.Object [("echoed", Js.get "params" msg)])].

Definition echo : MessageHandler :=
  mkHandler 1 (fun msg =>
    if Js.has "id" msg && Js.has "method" msg
    then ([OnProxy (ProxySend (echo_response msg))], Returns)
    else ([], Returns)).

Definition server : McpServer := mkServer [ProxySetOnMessage (Some echo)] Returns.

(** [received.push(msg)]: touches nothing of the transport. *)
Definition collect : MessageHandler := mkHandler 2 (fun _ => ([], Returns)).


(** [errors.push(e)] *)
Definition errors_push : ErrorHandler := mkHandler 4 (fun _ => ([], Returns)).


(** The client handler that throws [new Error("client fail")]. *)
Definition client_fail : MessageHandler :=
  mkHandler 6 (fun _ => ([], Throws (Js.ThrownError (Js.new_Error "client fail")))).

Definition request : JSONRPCMessage :=
  [("jsonrpc", Js.Str "2.0");
   ("id", Js.Str "1");
   ("method", Js.Str "echo");
   ("params", Js.Object [("foo", Js.Str "bar")])].

Definition fresh (s : McpServer) : World :=
  boot (mkTransport false s false None None None None).

End Test.

(** ** Vocabulary of the statements *)

(** Every promise that is settled, or that a queued promise job is about to
    fulfil, has been handed out. *)
Definition well_formed (w : World) : Prop :=
  (forall q s, In (q, s) (promises w) -> q < next_promise w) /\
  (forall q, In q (thenables (jobs w)) -> q < next_promise w).

(** From [w] to [w'] promises were only handed out and settled afterwards:
    what was settled in [w] is untouched, whatever got settled since was
    allocated since, and jobs were only queued, for promises allocated
    since. *)
Definition grows (w w' : World) : Prop :=
  next_promise w <= next_promise w' /\
  (exists l, promises w' = promises w ++ l /\
             Forall (fun qs => next_promise w <= fst qs < next_promise w') l) /\
  (exists js, jobs w' = jobs w ++ js /\
              Forall (fun q => next_promise w <= q < next_promise w') (thenables js)).

(** An upper bound on the promise jobs a queue gives rise to. *)
Fixpoint weight (l : list Job) : nat :=
  match l with
  | [] => 0
  | Continuation _ :: rest => weight rest
  | ResolveThenable _ :: rest => 2 + weight rest
  | FulfilThenable _ :: rest => 1 + weight rest
  end.

(** What promise jobs add to the promise table: fulfilments of promises
    among [ids]. *)
Definition fulfils (ids : list nat) (l : list (nat * Settlement)) : Prop :=
  Forall (fun qs => In (fst qs) ids /\ snd qs = Fulfilled) l.

(** From [w] to [w'] settlements were only added. *)
Definition extends (w w' : World) : Prop :=
  exists l, promises w' = promises w ++ l.

Definition is_server_delivery (t : Timer) : bool :=
  match t with
  | DeliverToServer _ _ _ => true
  | _ => false
  end.

(** The deliveries towards the responder that are still queued: one for every
    [send] that was accepted and has not run yet. *)
Definition accepted_sends (w : World) : list Timer := filter is_server_delivery (timers w).

(** No synchronous call sets [_started]; only the resumption of [start] does.
    So a stopped bridge stays stopped for the rest of the turn; meanwhile it
    accepts no [send] and schedules no close notification: the only timers
    that can be added are deliveries towards the client. *)
Definition stopped_like (w w' : World) : Prop :=
  _started (transport w') = false /\
  exists ms, timers w' = timers w ++ map DeliverToClient ms.

(** Nothing but the promise table and its jobs moved: no field written, no
    timer callback and no continuation queued, no handler called. *)
Definition quiet (w w' : World) : Prop :=
  transport w' = transport w /\ timers w' = timers w /\
  microtasks w' = microtasks w /\ log w' = log w.

(** Every field that [close] resets has its reset value. *)
Definition torn_down (t : PseudoTransport) : Prop :=
  _started t = false /\ _isServerConnected t = false /\
  _serverMessageHandler t = None /\ _clientMessageHandler t = None /\
  _clientErrorHandler t = None /\ _clientCloseHandler t = None.

(** In [w], whatever the message, [send] rejects with the not-started error
    and does nothing else. *)
Definition refuses_not_started (w : World) : Prop :=
  forall m, settlement (fst (send m w)) (snd (send m w))
            = Some (Rejected (Js.ThrownError NotStarted)) /\
            quiet w (snd (send m w)).

(** The world in which the body of [h] starts to run when [h(a)] is called in [w]. *)
Definition entry {A : Type} (ev : nat -> A -> Event) (h : Handler Call A) (a : A)
    (w : World) : World :=
  emit (ev (handler_id h) a) w.



(** The calls of a close handler recorded in a log, oldest first: the
    identity of the function called each time. *)
Fixpoint close_calls (l : list Event) : list nat :=
  match l with
  | [] => []
  | ClientClosed id :: rest => id :: close_calls rest
  | _ :: rest => close_calls rest
  end.



(** The test suite's bridge after [await transport.start()]. *)
Definition started_bridge : World := turns 1 (snd (start (Test.fresh Test.server))).

(** Inputs for the examples that are not taken from the test suite. *)
Module Sample.

(** A close handler that tries to send from inside the notification. *)
Definition resend_on_close : CloseHandler :=
  mkHandler 7 (fun _ => ([CallSend Test.request], Returns)).

(** The test suite's bridge, with handler [h] as [onclose], after
    [await transport.start()]. *)
Definition started_with_onclose (h : CloseHandler) : World :=
  turns 1 (snd (start (set_onclose (Some h) (Test.fresh Test.server)))).

(** A responder whose [connect] rejects with [new Error("boom")]. *)
Definition boom : Js.Error := Js.new_Error "boom".




(** The message the test "calls onerror if client handler throws" sends
    through the proxy, and the bridge at that point: started, with the
    throwing handler as [onmessage]. *)
Definition hi : JSONRPCMessage :=
  [("jsonrpc", Js.Str "2.0"); ("id", Js.Str "3"); ("result", Js.Str "hi")].
Definition client_fail_bridge : World :=
  set_onmessage (Some Test.client_fail) started_bridge.






(** The bridge of the test "routes client message to server and receives
    response", before [start]: the echo responder, [received.push] as
    [onmessage]. *)
Definition echo_bridge : World :=
  set_onmessage (Some Test.collect) (Test.fresh Test.server).

End Sample.

(** ** Sequences of operations on one instance *)

(** What can happen next to an instance: some code calls into it, or the
    event loop takes its next turn. *)
Inductive Action : Type :=
| Do (c : Call)
| Turn.

Definition act (a : Action) (w : World) : World :=
  match a with
  | Do c => exec c w
  | Turn => turns 1 w
  end.

Definition drive (acts : list Action) (w : World) : World :=
  fold_left (fun w a => act a w) acts w.

(** No sequence of operations brings the instance back to the started state. *)
Definition terminal (w : World) : Prop :=
  forall acts, _started (transport (drive acts w)) = false.

(** ** The specification's wording, where it differs from the code *)

(** From [w] on, whatever is called and however many turns pass, [send]
    rejects with the not-started error. *)
Definition refuses_from_now_on (w : World) : Prop :=
  forall acts, refuses_not_started (drive acts w).





(** ** Vocabulary of the further properties *)

(** The text of the warning [start] prints when the responder has registered
    no handler by the time of the second check. *)
Definition no_handler_warning : string :=
  "[PseudoTransport] McpServer did NOT set a message handler after connect completed. Client requests might fail.".

(** A peer marked connected has a message handler. *)
Definition peer_ready (w : World) : Prop :=
  _isServerConnected (transport w) = true -> _serverMessageHandler (transport w) <> None.

(** From [w] to [w'] the timer queue only grew, at the back. *)
Definition appends (w w' : World) : Prop :=
  exists added, timers w' = timers w ++ added.

(** In [w], whatever the message, [send] rejects with the peer-unavailable
    error and does nothing else. *)
Definition refuses_peer_unavailable (w : World) : Prop :=
  forall m, settlement (fst (send m w)) (snd (send m w))
            = Some (Rejected (Js.ThrownError PeerUnavailable)) /\
            quiet w (snd (send m w)).

(** The fields the client owns and the responder reference. *)
Definition client_side (t : PseudoTransport)
  : bool * McpServer * option MessageHandler * option ErrorHandler * option CloseHandler :=
  (_started t, _mcpServer t, _clientMessageHandler t, _clientErrorHandler t,
   _clientCloseHandler t).

(** [msg] is a request for the echo handler of the test suite. *)
Definition is_request (msg : JSONRPCMessage) : bool :=
  Js.has "id" msg && Js.has "method" msg.

(** Further inputs for the examples. *)
Module More.

(** A responder whose [connect] succeeds without registering a handler. *)
Definition silent_server : McpServer := mkServer [] Returns.

(** A second server handler, which does nothing. *)
Definition ignore : MessageHandler := mkHandler 9 (fun _ => ([], Returns)).

(** A second client handler, which does nothing. *)
Definition other_collect : MessageHandler := mkHandler 10 (fun _ => ([], Returns)).

(** A second request. *)
Definition request2 : JSONRPCMessage :=
  [("jsonrpc", Js.Str "2.0");
   ("id", Js.Str "2");
   ("method", Js.Str "echo");
   ("params", Js.Object [("n", Js.Number (Js.mkSafeInteger 2 eq_refl))])].

(** A notification: a method, no id. *)
Definition notification : JSONRPCMessage :=
  [("jsonrpc", Js.Str "2.0"); ("method", Js.Str "ping")].

(** The started echo bridge of the test suite with [received.push] as
    [onmessage] and [errors.push] as [onerror]. *)
Definition wired_bridge : World :=
  set_onerror (Some Test.errors_push)
    (turns 1 (snd (start Sample.echo_bridge))).

(** A responder whose [connect] registers the echo handler and then fails. *)
Definition half_connected_server : McpServer :=
  mkServer [ProxySetOnMessage (Some Test.echo)] (Throws (Js.ThrownError Sample.boom)).

End More.
(** ** Promise bookkeeping *)

Lemma lookup_settlement_app (p : nat) (l1 l2 : list (nat * Settlement)) :
  lookup_settlement p (l1 ++ l2) =
  match lookup_settlement p l1 with
  | Some s => Some s
  | None => lookup_settlement p l2
  end.
Proof.
  induction l1 as [|[q s] l1 IH]; simpl; [reflexivity|].
  destruct (Nat.eqb p q); [reflexivity|exact IH].
Qed.

Lemma lookup_settlement_absent (p : nat) (l : list (nat * Settlement)) :
  (forall q s, In (q, s) l -> q <> p) -> lookup_settlement p l = None.
Proof.
  induction l as [|[q s] l IH]; simpl; intros H; [reflexivity|].
  destruct (Nat.eqb_spec p q) as [->|_].
  - exfalso. apply (H q s); [now left|reflexivity].
  - apply IH. intros q' s' Hin. apply (H q' s'). now right.
Qed.

Lemma continuations_app (l1 l2 : list Job) :
  continuations (l1 ++ l2) = continuations l1 ++ continuations l2.
Proof.
  induction l1 as [|[k|p|p] l1 IH]; simpl; [reflexivity| |exact IH|exact IH].
  now rewrite IH.
Qed.

Lemma thenables_app (l1 l2 : list Job) :
  thenables (l1 ++ l2) = thenables l1 ++ thenables l2.
Proof.
  induction l1 as [|[k|p|p] l1 IH]; simpl; [reflexivity|exact IH| |]; now rewrite IH.
Qed.

Lemma weight_app (l1 l2 : list Job) : weight (l1 ++ l2) = weight l1 + weight l2.
Proof.
  induction l1 as [|[k|p|p] l1 IH]; simpl; [reflexivity|exact IH| |]; now rewrite IH.
Qed.

Lemma weight_length (l : list Job) : weight l <= 2 * List.length l.
Proof. induction l as [|[k|p|p] l IH]; simpl in *; lia. Qed.

Lemma grows_refl (w : World) : grows w w.
Proof.
  split; [lia|]. split.
  - exists []. split; [now rewrite app_nil_r|constructor].
  - exists []. split; [now rewrite app_nil_r|constructor].
Qed.

Lemma grows_trans {w1 w2 w3 : World} : grows w1 w2 -> grows w2 w3 -> grows w1 w3.
Proof.
  intros (H1 & (l1 & E1 & F1) & (j1 & J1 & K1)) (H2 & (l2 & E2 & F2) & (j2 & J2 & K2)).
  split; [lia|]. split.
  - exists (l1 ++ l2). split.
    + rewrite E2, E1. now rewrite app_assoc.
    + apply Forall_app. split.
      * eapply Forall_impl; [|exact F1]. simpl. intros a Ha. lia.
      * eapply Forall_impl; [|exact F2]. simpl. intros a Ha. lia.
  - exists (j1 ++ j2). split.
    + rewrite J2, J1. now rewrite app_assoc.
    + rewrite thenables_app. apply Forall_app. split.
      * eapply Forall_impl; [|exact K1]. simpl. intros a Ha. lia.
      * eapply Forall_impl; [|exact K2]. simpl. intros a Ha. lia.
Qed.

Lemma grows_same (w w' : World) :
  promises w' = promises w -> next_promise w' = next_promise w -> jobs w' = jobs w ->
  grows w w'.
Proof.
  intros Hp Hn Hj. split; [lia|]. split.
  - exists []. split; [now rewrite app_nil_r|constructor].
  - exists []. split; [now rewrite app_nil_r|constructor].
Qed.

Lemma grows_one (w w' : World) (s : Settlement) :
  promises w' = promises w ++ [(next_promise w, s)] ->
  next_promise w' = S (next_promise w) -> jobs w' = jobs w -> grows w w'.
Proof.
  intros Hp Hn Hj. split; [lia|]. split.
  - exists [(next_promise w, s)]. split; [exact Hp|].
    constructor; [simpl; lia|constructor].
  - exists []. split; [now rewrite app_nil_r|constructor].
Qed.

Lemma grows_alloc (w w' : World) :
  promises w' = promises w -> next_promise w' = S (next_promise w) -> jobs w' = jobs w ->
  grows w w'.
Proof.
  intros Hp Hn Hj. split; [lia|]. split.
  - exists []. split; [now rewrite app_nil_r|constructor].
  - exists []. split; [now rewrite app_nil_r|constructor].
Qed.

Lemma grows_await (w w' : World) (k : Microtask) :
  promises w' = promises w -> next_promise w' = next_promise w ->
  jobs w' = jobs w ++ [Continuation k] -> grows w w'.
Proof.
  intros Hp Hn Hj. split; [lia|]. split.
  - exists []. split; [now rewrite app_nil_r|constructor].
  - exists [Continuation k]. split; [exact Hj|constructor].
Qed.

Lemma grows_resolved (w w' : World) :
  promises w' = promises w -> next_promise w' = S (next_promise w) ->
  jobs w' = jobs w ++ [ResolveThenable (next_promise w)] -> grows w w'.
Proof.
  intros Hp Hn Hj. split; [lia|]. split.
  - exists []. split; [now rewrite app_nil_r|constructor].
  - exists [ResolveThenable (next_promise w)]. split; [exact Hj|].
    constructor; [lia|constructor].
Qed.

Lemma grows_extends {w w' : World} : grows w w' -> extends w w'.
Proof. intros (_ & (l & E & _) & _). now exists l. Qed.

Lemma extends_refl (w : World) : extends w w.
Proof. exists []. now rewrite app_nil_r. Qed.

Lemma extends_trans {w1 w2 w3 : World} : extends w1 w2 -> extends w2 w3 -> extends w1 w3.
Proof.
  intros [l1 E1] [l2 E2]. exists (l1 ++ l2). rewrite E2, E1. now rewrite app_assoc.
Qed.

(** A settled promise stays as it is. *)
Lemma extends_settled {w w' : World} {p : nat} {s : Settlement} :
  extends w w' -> settlement p w = Some s -> settlement p w' = Some s.
Proof.
  intros [l E] H. unfold settlement in *. rewrite E, lookup_settlement_app. now rewrite H.
Qed.

(** Synchronous code does not settle a promise it did not create. *)
Lemma grows_old {w w' : World} {p : nat} :
  grows w w' -> p < next_promise w -> settlement p w' = settlement p w.
Proof.
  intros (_ & (l & E & F) & _) Hp. unfold settlement. rewrite E, lookup_settlement_app.
  destruct (lookup_settlement p (promises w)); [reflexivity|].
  apply lookup_settlement_absent. intros q s Hin.
  rewrite Forall_forall in F. specialize (F _ Hin). simpl in F. lia.
Qed.

Lemma grows_well_formed {w w' : World} : grows w w' -> well_formed w -> well_formed w'.
Proof.
  intros (Hn & (l & E & F) & (js & J & K)) [Hw Hj]. split.
  - intros q s Hin. rewrite E in Hin. apply in_app_or in Hin.
    destruct Hin as [Hin|Hin].
    + specialize (Hw _ _ Hin). lia.
    + rewrite Forall_forall in F. specialize (F _ Hin). simpl in F. lia.
  - intros q Hin. rewrite J, thenables_app in Hin. apply in_app_or in Hin.
    destruct Hin as [Hin|Hin].
    + specialize (Hj _ Hin). lia.
    + rewrite Forall_forall in K. specialize (K _ Hin). lia.
Qed.

Lemma well_formed_pending {w : World} {p : nat} :
  well_formed w -> next_promise w <= p -> settlement p w = None.
Proof.
  intros [Hw _] Hp. apply lookup_settlement_absent. intros q s Hin.
  specialize (Hw _ _ Hin). lia.
Qed.

Lemma well_formed_boot (t : PseudoTransport) : well_formed (boot t).
Proof. split; [intros q s []|intros q []]. Qed.

Lemma fulfils_pending {ids : list nat} {p : nat} {l : list (nat * Settlement)} :
  fulfils ids l -> ~ In p ids -> lookup_settlement p l = None.
Proof.
  intros F Hp. apply lookup_settlement_absent. intros q s Hin ->.
  unfold fulfils in F. rewrite Forall_forall in F. specialize (F _ Hin). simpl in F.
  tauto.
Qed.

Lemma fulfils_fulfilled {ids : list nat} {p : nat} {l : list (nat * Settlement)}
    {s : Settlement} :
  fulfils ids l -> lookup_settlement p l = Some s -> s = Fulfilled.
Proof.
  induction l as [|[q s'] l IH]; simpl; intros F; [discriminate|].
  inversion F as [|? ? [_ Hs] F']; subst. simpl in Hs.
  destruct (Nat.eqb p q); [intros [= <-]; exact Hs|now apply IH].
Qed.


(** ** Synchronous calls only hand out promises *)

Ltac grows_call :=
  solve [ apply grows_refl
        | apply grows_same; reflexivity
        | eapply grows_one; reflexivity
        | apply grows_alloc; reflexivity
        | eapply grows_await; reflexivity
        | apply grows_resolved; reflexivity ].

Lemma proxy_exec_grows (c : ProxyCall) (w : World) : grows w (Proxy.exec c w).
Proof.
  destruct c as [[h|]|m| |]; simpl;
    unfold Proxy.set_onmessage, Proxy.send, Proxy.start, Proxy.close; simpl;
    try grows_call.
  destruct (_clientMessageHandler (transport w)); grows_call.
Qed.

Lemma proxy_run_grows (cs : list ProxyCall) (w : World) : grows w (Proxy.run cs w).
Proof.
  revert w. induction cs as [|c cs IH]; intros w; simpl; [apply grows_refl|].
  eapply grows_trans; [apply proxy_exec_grows|apply IH].
Qed.

Lemma start_grows (w : World) : grows w (snd (start w)).
Proof.
  unfold start. simpl. destruct (_started (transport w)); simpl; [grows_call|].
  apply (@grows_trans _ (snd (new_promise w))); [apply grows_alloc; reflexivity|].
  eapply grows_trans; [apply proxy_run_grows|]. eapply grows_await; reflexivity.
Qed.

Lemma close_grows (w : World) : grows w (snd (close w)).
Proof. unfold close. simpl. destruct (_started (transport w)); simpl; grows_call. Qed.

Lemma send_grows (m : JSONRPCMessage) (w : World) : grows w (snd (send m w)).
Proof.
  unfold send. simpl. destruct (_started (transport w)); simpl; [|grows_call].
  destruct (_serverMessageHandler (transport w)); [|grows_call].
  destruct (_isServerConnected (transport w)); grows_call.
Qed.

Lemma exec_grows (c : Call) (w : World) : grows w (exec c w).
Proof.
  destruct c; simpl;
    [apply proxy_exec_grows|grows_call|grows_call|grows_call
    |apply start_grows|apply close_grows|apply send_grows].
Qed.

Lemma run_calls_grows (cs : list Call) (w : World) : grows w (run_calls cs w).
Proof.
  revert w. induction cs as [|c cs IH]; intros w; simpl; [apply grows_refl|].
  eapply grows_trans; [apply exec_grows|apply IH].
Qed.

Lemma invoke_grows {A : Type} (ev : nat -> A -> Event) (h : Handler Call A) (a : A)
    (w : World) : grows w (fst (invoke ev h a w)).
Proof.
  unfold invoke. destruct (handler_body h a) as [cs c]. simpl.
  eapply grows_trans; [|apply run_calls_grows]. grows_call.
Qed.

Lemma report_error_grows (err : Js.Error) (w : World) : grows w (fst (report_error err w)).
Proof.
  unfold report_error. destruct (_clientErrorHandler (transport w)).
  - apply invoke_grows.
  - apply grows_refl.
Qed.

Lemma invoke_grows_eq {A : Type} {ev : nat -> A -> Event} {h : Handler Call A} {a : A}
    {w w' : World} {c : Completion} : invoke ev h a w = (w', c) -> grows w w'.
Proof. intros E. pose proof (invoke_grows ev h a w) as G. now rewrite E in G. Qed.

Lemma report_error_grows_eq {err : Js.Error} {w w' : World} {c : Completion} :
  report_error err w = (w', c) -> grows w w'.
Proof. intros E. pose proof (report_error_grows err w) as G. now rewrite E in G. Qed.

(** ** Deferred work only adds settlements *)

Lemma extends_settle (w w' : World) (p : nat) (s : Settlement) :
  extends w w' -> extends w (settle p s w').
Proof. intros [l E]. exists (l ++ [(p, s)]). simpl. rewrite E. now rewrite app_assoc. Qed.

Lemma extends_same (w w' w'' : World) :
  extends w w' -> promises w'' = promises w' -> extends w w''.
Proof. intros [l E] H. exists l. now rewrite H. Qed.

Lemma run_timer_extends (t : Timer) (w : World) : extends w (run_timer t w).
Proof.
  destruct t as [m|p|[h|]|h m p]; simpl.
  - destruct (_clientMessageHandler (transport w)) as [h|].
    + destruct (invoke ClientReceived h m w) as [w1 [|t]] eqn:E1;
        pose proof (grows_extends (invoke_grows_eq E1)) as X1; [exact X1|].
      destruct (report_error (delivery_error t) w1) as [w2 [|t2]] eqn:E2;
        pose proof (grows_extends (report_error_grows_eq E2)) as X2.
      * eapply extends_trans; eassumption.
      * eapply extends_same; [eapply extends_trans; eassumption|reflexivity].
    + destruct (report_error (delivery_error (Js.ThrownError not_a_function)) w)
        as [w2 [|t2]] eqn:E2;
        pose proof (grows_extends (report_error_grows_eq E2)) as X2; [exact X2|].
      eapply extends_same; [exact X2|reflexivity].
  - apply extends_settle.
    destruct (_serverMessageHandler (transport w));
      (eapply extends_same; [apply extends_refl|reflexivity]).
  - destruct (invoke closed_event h tt w) as [w1 [|t]] eqn:E1;
      pose proof (grows_extends (invoke_grows_eq E1)) as X1; [exact X1|].
    eapply extends_same; [exact X1|reflexivity].
  - apply extends_refl.
  - destruct (invoke ServerReceived h m w) as [w1 [|t]] eqn:E1;
      pose proof (grows_extends (invoke_grows_eq E1)) as X1.
    + now apply extends_settle.
    + destruct (report_error (delivery_error t) w1) as [w2 [|t2]] eqn:E2;
        pose proof (grows_extends (report_error_grows_eq E2)) as X2.
      * apply extends_settle. eapply extends_trans; eassumption.
      * eapply extends_same; [eapply extends_trans; eassumption|reflexivity].
Qed.

Lemma run_microtask_extends (k : Microtask) (w : World) : extends w (run_microtask k w).
Proof.
  destruct k as [p [|t]]; simpl.
  - destruct (_serverMessageHandler (transport w)).
    + apply extends_settle. eapply extends_same; [apply extends_refl|reflexivity].
    + eapply extends_same; [apply extends_refl|reflexivity].
  - destruct (report_error (connect_error t) w) as [w1 [|t1]] eqn:E1;
      pose proof (grows_extends (report_error_grows_eq E1)) as X1.
    + apply extends_settle. eapply extends_same; [exact X1|reflexivity].
    + now apply extends_settle.
Qed.

Lemma run_job_extends (j : Job) (w : World) : extends w (run_job j w).
Proof.
  destruct j as [k|p|p]; simpl.
  - apply run_microtask_extends.
  - eapply extends_same; [apply extends_refl|reflexivity].
  - apply extends_settle, extends_refl.
Qed.

(** ** The promise jobs of a turn *)

(** Promise jobs touch the promise table and the microtask queue only; they
    fulfil promises named in the queue, and stop in front of the first
    continuation.  When they empty the queue, every promise that was named
    in it has been fulfilled. *)
Lemma run_promise_jobs_spec (fuel : nat) (w : World) :
  weight (jobs w) <= fuel ->
  exists l rest,
    run_promise_jobs fuel w
    = mkWorld (transport w) (timers w) rest (promises w ++ l) (next_promise w) (log w) /\
    fulfils (thenables (jobs w)) l /\
    continuations rest = continuations (jobs w) /\
    (forall q, In q (thenables rest) -> In q (thenables (jobs w))) /\
    match rest with
    | j :: _ => is_promise_job j = false
    | [] => True
    end /\
    (rest = [] -> forall q, In q (thenables (jobs w)) -> In (q, Fulfilled) l).
Proof.
  revert w. induction fuel as [|fuel IH]; intros [t ts js ps n lg]; simpl; intros H.
  - exists [], js. rewrite app_nil_r. split; [reflexivity|]. split; [constructor|].
    split; [reflexivity|]. split; [tauto|].
    destruct js as [|[k|p|p] js]; simpl in *; try lia.
    + split; [exact I|]. intros _ q [].
    + split; [reflexivity|]. discriminate.
  - destruct js as [|[k|p|p] js]; simpl in *.
    + exists [], []. rewrite app_nil_r. repeat split; try constructor; tauto.
    + exists [], (Continuation k :: js). rewrite app_nil_r.
      split; [reflexivity|]. split; [constructor|]. split; [reflexivity|].
      split; [tauto|]. split; [reflexivity|discriminate].
    + destruct (IH (mkWorld t ts (js ++ [FulfilThenable p]) ps n lg))
        as (l & rest & E & F & C & T & Hd & A).
      { simpl. rewrite weight_app. simpl. lia. }
      simpl in *. exists l, rest. split; [exact E|]. split.
      { eapply Forall_impl; [|exact F]. intros [q s] [Hin Hs]. split; [|exact Hs].
        simpl in *. rewrite thenables_app in Hin. apply in_app_or in Hin.
        destruct Hin as [Hin|[<-|[]]]; [now right|now left]. }
      split; [rewrite C, continuations_app; simpl; now rewrite app_nil_r|].
      split; [|split; [exact Hd|]].
      * intros q Hin. specialize (T q Hin). rewrite thenables_app in T.
        apply in_app_or in T. destruct T as [T|[<-|[]]]; [now right|now left].
      * intros R q Hin. apply (A R). rewrite thenables_app. apply in_or_app.
        destruct Hin as [<-|Hin]; [right; now left|now left].
    + destruct (IH (mkWorld t ts js (ps ++ [(p, Fulfilled)]) n lg))
        as (l & rest & E & F & C & T & Hd & A).
      { simpl. lia. }
      simpl in *. exists ((p, Fulfilled) :: l), rest.
      split; [etransitivity; [exact E|]; now rewrite <- app_assoc|]. split.
      { constructor; [split; [now left|reflexivity]|].
        eapply Forall_impl; [|exact F]. intros [q s] [Hin Hs]. split; [now right|exact Hs]. }
      split; [exact C|]. split; [|split; [exact Hd|]].
      * intros q Hin. right. now apply T.
      * intros R q [<-|Hin]; [now left|right; now apply (A R)].
Qed.

Lemma promise_jobs_spec (w : World) :
  exists l rest,
    promise_jobs w
    = mkWorld (transport w) (timers w) rest (promises w ++ l) (next_promise w) (log w) /\
    fulfils (thenables (jobs w)) l /\
    continuations rest = microtasks w /\
    (forall q, In q (thenables rest) -> In q (thenables (jobs w))) /\
    match rest with
    | j :: _ => is_promise_job j = false
    | [] => True
    end /\
    (rest = [] -> forall q, In q (thenables (jobs w)) -> In (q, Fulfilled) l).
Proof. exact (run_promise_jobs_spec (2 * List.length (jobs w)) w (weight_length _)). Qed.

Lemma no_continuation_left (rest : list Job) :
  continuations rest = [] ->
  match rest with
  | j :: _ => is_promise_job j = false
  | [] => True
  end ->
  rest = [].
Proof. destruct rest as [|[k|p|p] rest]; simpl; try discriminate; easy. Qed.

Lemma continuation_first (rest : list Job) (k : Microtask) (ks : list Microtask) :
  continuations rest = k :: ks ->
  match rest with
  | j :: _ => is_promise_job j = false
  | [] => True
  end ->
  exists rest', rest = Continuation k :: rest' /\ continuations rest' = ks.
Proof.
  destruct rest as [|[k'|p|p] rest]; simpl; try discriminate.
  intros [= -> <-] _. now exists rest.
Qed.

(** With no continuation pending, the promise jobs empty the microtask queue
    and fulfil every promise that was named in it. *)
Lemma promise_jobs_idle (w : World) :
  microtasks w = [] ->
  exists l,
    fulfils (thenables (jobs w)) l /\
    (forall q, In q (thenables (jobs w)) -> In (q, Fulfilled) l) /\
    promise_jobs w
    = mkWorld (transport w) (timers w) [] (promises w ++ l) (next_promise w) (log w).
Proof.
  intros M. destruct (promise_jobs_spec w) as (l & rest & E & F & C & _ & Hd & A).
  rewrite M in C. pose proof (no_continuation_left rest C Hd) as ->.
  exists l. split; [exact F|]. split; [exact (A eq_refl)|exact E].
Qed.

(** A turn with no continuation pending and a timer queued: the promise jobs,
    then the callback at the front of the timer queue. *)
Lemma step_timer_spec (w : World) (t : Timer) (ts : list Timer) :
  microtasks w = [] -> timers w = t :: ts ->
  exists l,
    fulfils (thenables (jobs w)) l /\
    promise_jobs w
    = mkWorld (transport w) (timers w) [] (promises w ++ l) (next_promise w) (log w) /\
    step w = Some (run_timer t (mkWorld (transport w) ts [] (promises w ++ l)
                                  (next_promise w) (log w))).
Proof.
  intros M T. destruct (promise_jobs_idle w M) as (l & F & _ & E).
  exists l. split; [exact F|]. split; [exact E|]. unfold step. rewrite E. simpl.
  now rewrite T.
Qed.

(** A turn with a continuation pending: the promise jobs in front of it,
    then the continuation. *)
Lemma step_continuation_spec (w : World) (k : Microtask) (ks : list Microtask) :
  microtasks w = k :: ks ->
  exists l rest,
    fulfils (thenables (jobs w)) l /\
    continuations rest = ks /\
    (forall q, In q (thenables rest) -> In q (thenables (jobs w))) /\
    step w = Some (run_microtask k (mkWorld (transport w) (timers w) rest (promises w ++ l)
                                      (next_promise w) (log w))).
Proof.
  intros M. destruct (promise_jobs_spec w) as (l & rest & E & F & C & T & Hd & _).
  rewrite M in C. destruct (continuation_first rest k ks C Hd) as (rest' & -> & C').
  exists l, rest'. split; [exact F|]. split; [exact C'|]. split.
  - intros q Hin. apply T. exact Hin.
  - unfold step. rewrite E. reflexivity.
Qed.

(** A turn with neither: the promise jobs, if any. *)
Lemma step_idle_spec (w : World) :
  idle w ->
  (jobs w = [] /\ step w = None) \/
  (exists l, fulfils (thenables (jobs w)) l /\
             step w = Some (mkWorld (transport w) [] [] (promises w ++ l)
                              (next_promise w) (log w))).
Proof.
  intros [T M]. destruct (promise_jobs_idle w M) as (l & F & _ & E).
  destruct (jobs w) as [|j js] eqn:J.
  - left. split; [reflexivity|]. unfold step, promise_jobs. rewrite J. simpl.
    now rewrite J, T.
  - right. exists l. split; [exact F|]. unfold step. rewrite E. simpl.
    now rewrite T, J, <- T.
Qed.

Lemma step_extends {w w' : World} : step w = Some w' -> extends w w'.
Proof.
  destruct (promise_jobs_spec w) as (l & rest & E & _).
  assert (X : extends w (promise_jobs w)) by (exists l; now rewrite E).
  unfold step. destruct (jobs (promise_jobs w)) as [|j js].
  - destruct (timers (promise_jobs w)) as [|t ts].
    + destruct (jobs w); [discriminate|]. now intros [= <-].
    + intros [= <-]. eapply extends_trans; [exact X|].
      apply (@extends_trans _ (pop_timer ts (promise_jobs w))); [|apply run_timer_extends].
      eapply extends_same; [apply extends_refl|reflexivity].
  - intros [= <-]. eapply extends_trans; [exact X|].
    apply (@extends_trans _ (pop_job js (promise_jobs w))); [|apply run_job_extends].
    eapply extends_same; [apply extends_refl|reflexivity].
Qed.

Lemma turns_extends (n : nat) (w : World) : extends w (turns n w).
Proof.
  revert w. induction n as [|n IH]; intros w; simpl; [apply extends_refl|].
  destruct (step w) as [w'|] eqn:E; [|apply extends_refl].
  eapply extends_trans; [apply (step_extends E)|apply IH].
Qed.

Lemma turns_succ (n : nat) (w : World) : turns (S n) w = turns n (turns 1 w).
Proof.
  simpl. destruct (step w) eqn:E; [reflexivity|].
  destruct n; simpl; [reflexivity|]. now rewrite E.
Qed.

Lemma turns_step {w w' : World} : step w = Some w' -> turns 1 w = w'.
Proof. intros E. simpl. now rewrite E. Qed.
(** ** While the bridge is not started *)

Lemma stopped_like_refl (w : World) : _started (transport w) = false -> stopped_like w w.
Proof. intros S. split; [exact S|]. exists []. simpl. now rewrite app_nil_r. Qed.

Lemma stopped_like_trans (w1 w2 w3 : World) :
  stopped_like w1 w2 -> stopped_like w2 w3 -> stopped_like w1 w3.
Proof.
  intros [_ [ms1 T1]] [S2 [ms2 T2]]. split; [exact S2|].
  exists (ms1 ++ ms2). rewrite T2, T1, map_app. now rewrite app_assoc.
Qed.

Lemma stopped_like_same (w w' : World) :
  _started (transport w') = false -> timers w' = timers w -> stopped_like w w'.
Proof. intros S T. split; [exact S|]. exists []. simpl. now rewrite app_nil_r. Qed.

Lemma stopped_like_accepted {w w' : World} :
  stopped_like w w' -> accepted_sends w' = accepted_sends w.
Proof.
  intros [_ [ms T]]. unfold accepted_sends. rewrite T, filter_app.
  replace (filter is_server_delivery (map DeliverToClient ms)) with (@nil Timer);
    [now rewrite app_nil_r|].
  clear T. induction ms as [|m ms IH]; simpl; [reflexivity|exact IH].
Qed.

Lemma proxy_exec_stopped (c : ProxyCall) {w : World} :
  _started (transport w) = false -> stopped_like w (Proxy.exec c w).
Proof.
  intros S. destruct c as [[h|]|m| |]; simpl;
    unfold Proxy.set_onmessage, Proxy.send, Proxy.start, Proxy.close; simpl;
    try (apply stopped_like_same; [exact S|reflexivity]).
  destruct (_clientMessageHandler (transport w)); simpl.
  - split; [exact S|]. now exists [m].
  - apply stopped_like_same; [exact S|reflexivity].
Qed.

Lemma proxy_run_stopped (cs : list ProxyCall) {w : World} :
  _started (transport w) = false -> stopped_like w (Proxy.run cs w).
Proof.
  revert w. induction cs as [|c cs IH]; intros w S; simpl; [now apply stopped_like_refl|].
  pose proof (proxy_exec_stopped c S) as H.
  eapply stopped_like_trans; [exact H|]. apply IH, H.
Qed.

Lemma exec_stopped (c : Call) {w : World} :
  _started (transport w) = false -> stopped_like w (exec c w).
Proof.
  intros S. destruct c; simpl.
  - now apply proxy_exec_stopped.
  - apply stopped_like_same; [exact S|reflexivity].
  - apply stopped_like_same; [exact S|reflexivity].
  - apply stopped_like_same; [exact S|reflexivity].
  - unfold start. simpl. rewrite S. simpl.
    destruct (@proxy_run_stopped (connect_calls (_mcpServer (transport w)))
                (snd (new_promise w)) S) as [S' [ms T]].
    split; [exact S'|]. exists ms. exact T.
  - unfold close. simpl. rewrite S. simpl. apply stopped_like_same; [exact S|reflexivity].
  - unfold send. simpl. rewrite S. simpl. apply stopped_like_same; [exact S|reflexivity].
Qed.

Lemma run_calls_stopped (cs : list Call) {w : World} :
  _started (transport w) = false -> stopped_like w (run_calls cs w).
Proof.
  revert w. induction cs as [|c cs IH]; intros w S; simpl; [now apply stopped_like_refl|].
  pose proof (exec_stopped c S) as H.
  eapply stopped_like_trans; [exact H|]. apply IH, H.
Qed.

(** Synchronous calls never invoke a handler: the log is untouched. *)
Lemma proxy_exec_log (c : ProxyCall) (w : World) : log (Proxy.exec c w) = log w.
Proof.
  destruct c as [[h|]|m| |]; simpl; try reflexivity.
  unfold Proxy.send. simpl. now destruct (_clientMessageHandler (transport w)).
Qed.

Lemma proxy_run_log (cs : list ProxyCall) (w : World) : log (Proxy.run cs w) = log w.
Proof.
  revert w. induction cs as [|c cs IH]; intros w; simpl; [reflexivity|].
  unfold Proxy.run in IH. now rewrite IH, proxy_exec_log.
Qed.

Lemma exec_log (c : Call) (w : World) : log (exec c w) = log w.
Proof.
  destruct c as [pc|h|h|h| | |m]; simpl; try reflexivity.
  - apply proxy_exec_log.
  - unfold start. simpl. destruct (_started (transport w)); simpl; [reflexivity|].
    now rewrite proxy_run_log.
  - unfold close. simpl. now destruct (_started (transport w)).
  - unfold send. simpl. destruct (_started (transport w)); simpl; [|reflexivity].
    destruct (_serverMessageHandler (transport w)); [|reflexivity].
    now destruct (_isServerConnected (transport w)).
Qed.

Lemma run_calls_log (cs : list Call) (w : World) : log (run_calls cs w) = log w.
Proof.
  revert w. induction cs as [|c cs IH]; intros w; simpl; [reflexivity|].
  unfold run_calls in IH. now rewrite IH, exec_log.
Qed.

(** So calling a handler logs exactly the call. *)
Lemma invoke_log {A : Type} (ev : nat -> A -> Event) (h : Handler Call A) (a : A)
    (w : World) : log (fst (invoke ev h a w)) = log w ++ [ev (handler_id h) a].
Proof.
  unfold invoke. destruct (handler_body h a) as [cs c]. simpl. now rewrite run_calls_log.
Qed.

Lemma invoke_completion {A : Type} (ev : nat -> A -> Event) (h : Handler Call A) (a : A)
    (w : World) : snd (invoke ev h a w) = snd (handler_body h a).
Proof. unfold invoke. now destruct (handler_body h a). Qed.

Lemma invoke_world {A : Type} (ev : nat -> A -> Event) (h : Handler Call A) (a : A)
    (w : World) :
  fst (invoke ev h a w) = run_calls (fst (handler_body h a)) (emit (ev (handler_id h) a) w).
Proof. unfold invoke. now destruct (handler_body h a). Qed.




(** ** C3: when [send] is refused *)

Lemma settlement_settle_fresh {w : World} {p : nat} (s : Settlement) :
  settlement p w = None -> settlement p (settle p s w) = Some s.
Proof.
  intros H. unfold settlement in *. simpl. rewrite lookup_settlement_app, H. simpl.
  now rewrite Nat.eqb_refl.
Qed.

(** C3 -- precondition of [send].  On a transport that is not started the
    returned promise is rejected with the not-started error; on a started
    transport whose server handler is unset or whose peer is marked
    disconnected it is rejected with the peer-unavailable error; in both
    cases no field is written, nothing is scheduled and no handler is called.
    The promise is left pending (the message accepted, its delivery queued)
    exactly when the transport is started, the peer connected and the server
    handler set. *)
Theorem send_precondition (m : JSONRPCMessage) {w : World} (WF : well_formed w) :
  let p := fst (send m w) in
  let w' := snd (send m w) in
  (_started (transport w) = false ->
   settlement p w' = Some (Rejected (Js.ThrownError NotStarted)) /\ quiet w w') /\
  (_started (transport w) = true ->
   _serverMessageHandler (transport w) = None \/ _isServerConnected (transport w) = false ->
   settlement p w' = Some (Rejected (Js.ThrownError PeerUnavailable)) /\ quiet w w') /\
  (settlement p w' = None <->
   _started (transport w) = true /\ _isServerConnected (transport w) = true /\
   _serverMessageHandler (transport w) <> None) /\
  (settlement p w' = None ->
   exists h, _serverMessageHandler (transport w) = Some h /\
             timers w' = timers w ++ [DeliverToServer h m p] /\ log w' = log w).
Proof.
  assert (P : settlement (next_promise w) (snd (new_promise w)) = None)
    by (apply (well_formed_pending WF); lia).
  unfold send. simpl.
  destruct (_started (transport w)) eqn:S; simpl.
  - destruct (_serverMessageHandler (transport w)) as [h|] eqn:H;
      [destruct (_isServerConnected (transport w)) eqn:C|]; simpl.
    + split; [discriminate|]. split; [intros _ [X|X]; discriminate|].
      split; [split; [intros _; repeat split; discriminate|intros _; exact P]|].
      intros _. exists h. repeat split.
    + rewrite (settlement_settle_fresh _ P).
      split; [discriminate|]. split; [intros _ _; repeat split|].
      split; [split; [discriminate|intros (_ & X & _); discriminate]|discriminate].
    + rewrite (settlement_settle_fresh _ P).
      split; [discriminate|]. split; [intros _ _; repeat split|].
      split; [split; [discriminate|intros (_ & _ & X); now elim X]|discriminate].
  - rewrite (settlement_settle_fresh _ P).
    split; [intros _; repeat split|]. split; [discriminate|].
    split; [split; [discriminate|intros (X & _); discriminate]|discriminate].
Qed.

(** On a new instance, before any [start], the request of the test suite is
    rejected with the not-started error. *)
Lemma send_precondition_witness :
  well_formed (Test.fresh Test.server) /\
  settlement 0 (snd (send Test.request (Test.fresh Test.server)))
  = Some (Rejected (Js.ThrownError NotStarted)).
Proof.
  split; [apply well_formed_boot|].
  exact (proj1 (proj1 (send_precondition Test.request
                         (well_formed_boot (transport (Test.fresh Test.server))))
                 eq_refl)).
Defined.

(** ** C8: closing the proxy *)

(** C8 -- [close] on the proxy does not cascade.  The call writes
    [_isServerConnected = false] and nothing else: [_started], the responder
    reference and the four handler slots keep their values, no timer or
    microtask is queued (so no close notification is pending) and no handler
    is called; its own promise is fulfilled. *)
Theorem proxy_close_does_not_cascade (w : World) :
  let w' := snd (Proxy.close w) in
  _isServerConnected (transport w') = false /\
  _started (transport w') = _started (transport w) /\
  _mcpServer (transport w') = _mcpServer (transport w) /\
  _serverMessageHandler (transport w') = _serverMessageHandler (transport w) /\
  _clientMessageHandler (transport w') = _clientMessageHandler (transport w) /\
  _clientErrorHandler (transport w') = _clientErrorHandler (transport w) /\
  _clientCloseHandler (transport w') = _clientCloseHandler (transport w) /\
  timers w' = timers w /\ microtasks w' = microtasks w /\ log w' = log w /\
  promises w' = promises w ++ [(fst (Proxy.close w), Fulfilled)].
Proof. repeat split. Qed.

(** ** C4: what [close] leaves behind *)

Lemma send_refused_not_started (w : World) :
  well_formed w -> _started (transport w) = false -> refuses_not_started w.
Proof.
  intros WF S m.
  assert (P : settlement (next_promise w) (snd (new_promise w)) = None)
    by (apply (well_formed_pending WF); lia).
  unfold send. simpl. rewrite S. simpl. rewrite (settlement_settle_fresh _ P).
  repeat split.
Qed.

Lemma microtasks_enqueue (j : Job) (w : World) :
  is_promise_job j = true -> microtasks (enqueue j w) = microtasks w.
Proof.
  intros H. unfold microtasks. simpl. rewrite continuations_app.
  destruct j; [discriminate| |]; simpl; now rewrite app_nil_r.
Qed.

Lemma microtasks_await (k : Microtask) (w : World) :
  microtasks (await k w) = microtasks w ++ [k].
Proof. unfold microtasks. simpl. now rewrite continuations_app. Qed.

Lemma thenables_enqueue_resolve (p : nat) (w : World) :
  thenables (jobs (enqueue (ResolveThenable p) w)) = thenables (jobs w) ++ [p].
Proof. simpl. now rewrite thenables_app. Qed.

Lemma thenables_await (k : Microtask) (w : World) :
  thenables (jobs (await k w)) = thenables (jobs w).
Proof. simpl. rewrite thenables_app. simpl. now rewrite app_nil_r. Qed.

(** [close] on a started transport, in one piece. *)
Lemma close_started (w : World) :
  _started (transport w) = true ->
  close w =
  (next_promise w,
   enqueue (ResolveThenable (next_promise w))
     (mkWorld (mkTransport false (_mcpServer (transport w)) false None None None None)
        (timers w ++ [CloseNotify (_clientCloseHandler (transport w))])
        (jobs w) (promises w) (S (next_promise w)) (log w))).
Proof.
  destruct w as [[st srv cn cm ce cc sm] ts js ps n lg]. simpl. intros ->. reflexivity.
Qed.

(** [close] on a transport that is not started, in one piece. *)
Lemma close_stopped (w : World) :
  _started (transport w) = false ->
  close w = (next_promise w, enqueue (ResolveThenable (next_promise w)) (snd (new_promise w))).
Proof.
  destruct w as [[st srv cn cm ce cc sm] ts js ps n lg]. simpl. intros ->. reflexivity.
Qed.

(** The world the promise jobs of a turn leave behind is well formed. *)
Lemma well_formed_after_jobs (w : World) (t : PseudoTransport) (ts : list Timer)
    (rest : list Job) (l : list (nat * Settlement)) (lg : list Event) :
  well_formed w -> fulfils (thenables (jobs w)) l ->
  (forall q, In q (thenables rest) -> In q (thenables (jobs w))) ->
  well_formed (mkWorld t ts rest (promises w ++ l) (next_promise w) lg).
Proof.
  intros [WP WJ] F R. split; simpl.
  - intros q s Hin. apply in_app_or in Hin. destruct Hin as [Hin|Hin]; [exact (WP _ _ Hin)|].
    unfold fulfils in F. rewrite Forall_forall in F. destruct (F _ Hin) as [Hq _].
    exact (WJ _ Hq).
  - intros q Hin. exact (WJ _ (R _ Hin)).
Qed.

(** C4, as the code has it -- teardown by [close].  On a started transport
    [close] resets [_started], [_isServerConnected] and the four handler
    slots within the call, and only queues the close notification, behind
    the timers already pending; no handler has run when the call returns.
    For the rest of the turn, whatever is called on the transport or the
    proxy, [start] included, [send] rejects with the not-started error.  When
    nothing else was pending and the notification is the next thing to run,
    the close handler starts in the torn-down state, and at every point of
    its body a [send] is still refused with the not-started error: the
    handler cannot get a message accepted. *)
Theorem close_teardown (w : World) (WF : well_formed w)
    (S : _started (transport w) = true) :
  let h := _clientCloseHandler (transport w) in
  let w1 := snd (close w) in
  torn_down (transport w1) /\
  timers w1 = timers w ++ [CloseNotify h] /\
  microtasks w1 = microtasks w /\
  log w1 = log w /\
  (forall cs, refuses_not_started (run_calls cs w1) /\ log (run_calls cs w1) = log w) /\
  (idle w ->
   forall hc, h = Some hc ->
   exists w2,
     step w1 = Some w2 /\
     let w_in := entry closed_event hc tt (pop_timer [] (promise_jobs w1)) in
     torn_down (transport w_in) /\
     (forall cs1 cs2, fst (handler_body hc tt) = cs1 ++ cs2 ->
                      refuses_not_started (run_calls cs1 w_in)) /\
     _started (transport w2) = false /\
     accepted_sends w2 = []).
Proof.
  intros h w1.
  assert (G : grows w w1) by apply close_grows.
  assert (WF1 : well_formed w1) by exact (grows_well_formed G WF).
  assert (E1 : w1 = snd (next_promise w,
                         enqueue (ResolveThenable (next_promise w))
                           (mkWorld (mkTransport false (_mcpServer (transport w)) false
                                       None None None None)
                              (timers w ++ [CloseNotify h])
                              (jobs w) (promises w) (Datatypes.S (next_promise w)) (log w))))
    by (subst w1 h; now rewrite (close_started w S)).
  simpl in E1.
  assert (S1 : _started (transport w1) = false) by (rewrite E1; reflexivity).
  assert (M1 : microtasks w1 = microtasks w)
    by (rewrite E1, microtasks_enqueue; reflexivity).
  assert (L1 : log w1 = log w) by (rewrite E1; reflexivity).
  split; [rewrite E1; repeat split|]. split; [rewrite E1; reflexivity|].
  split; [exact M1|]. split; [exact L1|]. split.
  { intros cs. split; [|now rewrite run_calls_log].
    apply send_refused_not_started.
    - exact (grows_well_formed (run_calls_grows cs w1) WF1).
    - apply (run_calls_stopped cs S1). }
  intros [T M] hc Hc.
  destruct (step_timer_spec w1 (CloseNotify (Some hc)) []) as (l & F & EJ & ES).
  { now rewrite M1. }
  { rewrite E1. simpl. now rewrite T, Hc. }
  set (W0 := mkWorld (transport w1) [] [] (promises w1 ++ l) (next_promise w1) (log w1))
    in *.
  assert (EP : pop_timer [] (promise_jobs w1) = W0) by (rewrite EJ; reflexivity).
  exists (run_timer (CloseNotify (Some hc)) W0). split; [exact ES|].
  rewrite EP. intros w_in.
  assert (S0 : _started (transport w_in) = false) by exact S1.
  assert (WF0 : well_formed w_in).
  { subst w_in W0. unfold entry, emit. simpl.
    apply (well_formed_after_jobs w1); [exact WF1|exact F|intros q []]. }
  assert (TD : torn_down (transport w_in))
    by (subst w_in W0; rewrite E1; repeat split).
  assert (T0 : timers w_in = []) by reflexivity.
  pose proof (run_calls_stopped (fst (handler_body hc tt)) S0) as ST.
  split; [exact TD|]. split.
  - intros cs1 cs2 E. apply send_refused_not_started.
    + eapply grows_well_formed; [apply run_calls_grows|exact WF0].
    + apply (run_calls_stopped cs1 S0).
  - assert (A : accepted_sends (run_calls (fst (handler_body hc tt)) w_in) = []).
    { rewrite (stopped_like_accepted ST). unfold accepted_sends. now rewrite T0. }
    change (run_timer (CloseNotify (Some hc)) W0)
      with (let (w', c) := invoke closed_event hc tt W0 in
            match c with
            | Returns => w'
            | Throws t => emit (Uncaught t) w'
            end).
    pose proof (invoke_world closed_event hc tt W0) as IW.
    fold (entry closed_event hc tt W0) in IW. fold w_in in IW.
    destruct (invoke closed_event hc tt W0) as [w2 c]. simpl in IW. subst w2.
    destruct c; (split; [apply ST|exact A]).
Qed.

Ltac concrete_well_formed :=
  split;
  [ intros ? ? H; vm_compute in H;
    repeat (destruct H as [H|H]; [inversion H; subst; vm_compute; lia|]);
    contradiction
  | intros ? H; vm_compute in H;
    repeat (destruct H as [H|H]; [subst; vm_compute; lia|]);
    contradiction ].

(** A started bridge whose close handler calls [send]: after [close], and
    still after a [start] issued in the same turn, [send] is refused. *)
Lemma close_teardown_witness :
  well_formed (Sample.started_with_onclose Sample.resend_on_close) /\
  _started (transport (Sample.started_with_onclose Sample.resend_on_close)) = true /\
  refuses_not_started
    (run_calls [CallStart] (snd (close (Sample.started_with_onclose Sample.resend_on_close)))).
Proof.
  assert (WF : well_formed (Sample.started_with_onclose Sample.resend_on_close))
    by concrete_well_formed.
  split; [exact WF|]. split; [reflexivity|].
  exact (proj1 (proj1 (proj2 (proj2 (proj2 (proj2 (close_teardown _ WF eq_refl)))))
                  [CallStart])).
Defined.

(** C4, as the specification has it, fails: not every [send] issued after
    [close] is refused, and a close handler can get a message accepted.
    After [close] and [start] on the test suite's bridge, one turn resumes
    [start], so that [send] is accepted again; in the following turn the
    close notification runs, and the request its handler sends is queued for
    delivery. *)
Lemma send_accepted_after_close :
  ~ refuses_from_now_on (snd (close (Sample.started_with_onclose Sample.resend_on_close))) /\
  _started (transport (drive [Do CallStart; Turn]
                         (snd (close (Sample.started_with_onclose Sample.resend_on_close)))))
  = true /\
  close_calls (log (drive [Do CallStart; Turn; Turn]
                      (snd (close (Sample.started_with_onclose Sample.resend_on_close)))))
  = [handler_id Sample.resend_on_close] /\
  accepted_sends (drive [Do CallStart; Turn; Turn]
                    (snd (close (Sample.started_with_onclose Sample.resend_on_close))))
  = [DeliverToServer Test.echo Test.request 3].
Proof.
  split; [|split; [|split]]; [|vm_compute; reflexivity..].
  intros H. destruct (H [Do CallStart; Turn] Test.request) as [R _].
  vm_compute in R. discriminate R.
Qed.

(** ** C9: the close handler runs once, and later *)



Lemma close_stopped_quiet (w : World) :
  _started (transport w) = false -> quiet w (snd (close w)).
Proof.
  intros S. rewrite (close_stopped w S). simpl.
  split; [reflexivity|]. split; [reflexivity|]. split; [|reflexivity].
  now rewrite microtasks_enqueue.
Qed.








(** ** C2: [close] and a later [start] *)

Lemma proxy_exec_jobs (c : ProxyCall) (w : World) : jobs (Proxy.exec c w) = jobs w.
Proof.
  destruct c as [[h|]|m| |]; simpl; try reflexivity.
  unfold Proxy.send. simpl. now destruct (_clientMessageHandler (transport w)).
Qed.

Lemma proxy_run_jobs (cs : list ProxyCall) (w : World) : jobs (Proxy.run cs w) = jobs w.
Proof.
  revert w. induction cs as [|c cs IH]; intros w; simpl; [reflexivity|].
  unfold Proxy.run in IH. now rewrite IH, proxy_exec_jobs.
Qed.

Lemma proxy_run_microtasks (cs : list ProxyCall) (w : World) :
  microtasks (Proxy.run cs w) = microtasks w.
Proof. unfold microtasks. now rewrite proxy_run_jobs. Qed.

(** The promise of a [start] that got past the already-started check is
    pending when the call returns, and the rest of the method is queued
    behind the microtasks already there. *)
Lemma start_suspends (w : World) :
  well_formed w -> _started (transport w) = false ->
  settlement (fst (start w)) (snd (start w)) = None /\
  fst (start w) = next_promise w /\
  jobs (snd (start w))
  = jobs w ++ [Continuation (AfterConnect (next_promise w)
                               (connect_result (_mcpServer (transport w))))] /\
  microtasks (snd (start w))
  = microtasks w ++ [AfterConnect (next_promise w) (connect_result (_mcpServer (transport w)))] /\
  _started (transport (snd (start w))) = false /\
  log (snd (start w)) = log w /\
  grows w (snd (start w)).
Proof.
  intros WF St. pose proof (start_grows w) as G. revert G.
  unfold start. simpl. rewrite St. simpl. intros G.
  set (w0 := snd (new_promise w)).
  assert (P : settlement (next_promise w) w0 = None)
    by (apply (well_formed_pending WF); lia).
  pose proof (proxy_run_grows (connect_calls (_mcpServer (transport w))) w0) as G0.
  assert (St0 : _started (transport w0) = false) by exact St.
  pose proof (proxy_run_stopped (connect_calls (_mcpServer (transport w))) St0) as [S1 _].
  split.
  - change (settlement (next_promise w)
              (Proxy.run (connect_calls (_mcpServer (transport w))) w0) = None).
    rewrite (grows_old G0); [exact P|]. simpl. lia.
  - split; [reflexivity|]. split; [now rewrite proxy_run_jobs|].
    split; [unfold microtasks; simpl; now rewrite continuations_app, proxy_run_jobs|].
    split; [exact S1|]. split; [now rewrite proxy_run_log|exact G].
Qed.

(** Settling a pending promise after the promise jobs of a turn have run:
    with [Fulfilled] the outcome is [Fulfilled] in any case; otherwise the
    promise must not be one the jobs were about to fulfil. *)
Lemma settle_fulfilled_after_jobs {ids : list nat} {l : list (nat * Settlement)}
    (p : nat) (ps : list (nat * Settlement)) :
  lookup_settlement p ps = None -> fulfils ids l ->
  lookup_settlement p ((ps ++ l) ++ [(p, Fulfilled)]) = Some Fulfilled.
Proof.
  intros P F. rewrite !lookup_settlement_app, P.
  destruct (lookup_settlement p l) as [s|] eqn:L.
  - now rewrite (fulfils_fulfilled F L).
  - simpl. now rewrite Nat.eqb_refl.
Qed.

Lemma settle_after_jobs {ids : list nat} {l : list (nat * Settlement)}
    (p : nat) (s : Settlement) (ps : list (nat * Settlement)) :
  lookup_settlement p ps = None -> fulfils ids l -> ~ In p ids ->
  lookup_settlement p ((ps ++ l) ++ [(p, s)]) = Some s.
Proof.
  intros P F N. rewrite !lookup_settlement_app, P, (fulfils_pending F N).
  simpl. now rewrite Nat.eqb_refl.
Qed.

Lemma pending_after_jobs {ids : list nat} {l : list (nat * Settlement)}
    (p : nat) (ps : list (nat * Settlement)) :
  lookup_settlement p ps = None -> fulfils ids l -> ~ In p ids ->
  lookup_settlement p (ps ++ l) = None.
Proof. intros P F N. now rewrite lookup_settlement_app, P, (fulfils_pending F N). Qed.

(** C2, as the code has it -- [close] is not terminal.  [close] on a started
    transport leaves it torn down; a later [start] on the same instance,
    with a responder whose [connect] succeeds and registers a message handler
    on the proxy, is resumed in the next turn, sets [_started] again and
    fulfils its promise. *)
Theorem restart_after_close (w : World) (WF : well_formed w)
    (St : _started (transport w) = true) (M : microtasks w = [])
    (Ok : connect_result (_mcpServer (transport w)) = Returns) :
  let w1 := snd (close w) in
  let p := fst (start w1) in
  let w2 := snd (start w1) in
  torn_down (transport w1) /\
  (_serverMessageHandler (transport w2) <> None ->
   exists w3, step w2 = Some w3 /\
              _started (transport w3) = true /\
              settlement p w3 = Some Fulfilled).
Proof.
  intros w1 p w2.
  assert (E1 : w1 = snd (close w)) by reflexivity.
  rewrite (close_started w St) in E1. simpl in E1.
  assert (T1 : torn_down (transport w1)) by (rewrite E1; repeat split).
  assert (WF1 : well_formed w1) by exact (grows_well_formed (close_grows w) WF).
  assert (M1 : microtasks w1 = [])
    by (rewrite E1, microtasks_enqueue; [exact M|reflexivity]).
  assert (R1 : _mcpServer (transport w1) = _mcpServer (transport w))
    by (rewrite E1; reflexivity).
  destruct (start_suspends w1 WF1 (proj1 T1)) as (P & Ep & _ & Mk & _ & _ & _).
  fold p w2 in P, Ep, Mk. rewrite M1, R1, Ok, <- Ep in Mk. simpl in Mk.
  split; [exact T1|]. intros H.
  destruct (step_continuation_spec w2 _ _ Mk) as (l & rest & F & _ & _ & ES).
  rewrite ES. simpl.
  destruct (_serverMessageHandler (transport w2)) as [h|] eqn:Hh; [|now elim H].
  eexists. split; [reflexivity|]. split; [reflexivity|].
  exact (settle_fulfilled_after_jobs p (promises w2) P F).
Qed.

(** The test suite's bridge, started, closed and started again. *)
Lemma restart_after_close_witness :
  well_formed started_bridge /\
  _started (transport started_bridge) = true /\
  microtasks started_bridge = [] /\
  connect_result (_mcpServer (transport started_bridge)) = Returns /\
  _serverMessageHandler (transport (snd (start (snd (close started_bridge))))) <> None /\
  exists w3, step (snd (start (snd (close started_bridge)))) = Some w3 /\
             _started (transport w3) = true /\
             settlement (fst (start (snd (close started_bridge)))) w3 = Some Fulfilled.
Proof.
  assert (WF : well_formed started_bridge) by concrete_well_formed.
  assert (H : _serverMessageHandler (transport (snd (start (snd (close started_bridge)))))
              <> None) by discriminate.
  split; [exact WF|]. split; [reflexivity|]. split; [reflexivity|].
  split; [reflexivity|]. split; [exact H|].
  exact (proj2 (restart_after_close started_bridge WF eq_refl eq_refl eq_refl) H).
Defined.

(** C2, as the specification has it, fails: after [close], one [start] and one
    turn of the event loop make the test suite's bridge started again. *)
Lemma close_is_not_terminal : ~ terminal (snd (close started_bridge)).
Proof.
  intros H. specialize (H [Do CallStart; Turn]). discriminate H.
Qed.
(** ** What a deferred delivery does *)

Lemma invoke_spec {A : Type} (ev : nat -> A -> Event) (h : Handler Call A) (a : A)
    (w : World) :
  exists w', invoke ev h a w = (w', snd (handler_body h a)) /\
             log w' = log w ++ [ev (handler_id h) a] /\
             grows w w'.
Proof.
  exists (fst (invoke ev h a w)). split; [|split].
  - rewrite <- invoke_completion with (ev := ev) (w := w). now destruct (invoke ev h a w).
  - apply invoke_log.
  - apply invoke_grows.
Qed.

Lemma settle_pending_old {w w' : World} {p : nat} (s : Settlement) :
  grows w w' -> p < next_promise w -> settlement p w = None ->
  settlement p (settle p s w') = Some s.
Proof.
  intros G Hp P. apply settlement_settle_fresh. now rewrite (grows_old G Hp).
Qed.

(** The callback queued by [send], run in [w] while its promise is pending. *)
Lemma deliver_to_server_spec (h : MessageHandler) (m : JSONRPCMessage) (p : nat)
    (w : World) :
  p < next_promise w -> settlement p w = None ->
  let w3 := run_timer (DeliverToServer h m p) w in
  let received := ServerReceived (handler_id h) m in
  match snd (handler_body h m) with
  | Returns => log w3 = log w ++ [received] /\ settlement p w3 = Some Fulfilled
  | Throws t =>
      let err := delivery_error t in
      match _clientErrorHandler (transport (fst (invoke ServerReceived h m w))) with
      | None =>
          log w3 = log w ++ [received] /\
          settlement p w3 = Some (Rejected (Js.ThrownError err))
      | Some eh =>
          match snd (handler_body eh err) with
          | Returns =>
              log w3 = log w ++ [received; ClientError (handler_id eh) err] /\
              settlement p w3 = Some (Rejected (Js.ThrownError err))
          | Throws t2 =>
              log w3 = log w ++ [received; ClientError (handler_id eh) err; Uncaught t2] /\
              settlement p w3 = None
          end
      end
  end.
Proof.
  intros Hp P. simpl.
  destruct (invoke_spec ServerReceived h m w) as (w1 & E1 & L1 & G1). rewrite E1. simpl.
  destruct (snd (handler_body h m)) as [|t].
  - split; [exact L1|]. exact (settle_pending_old _ G1 Hp P).
  - unfold report_error. destruct (_clientErrorHandler (transport w1)) as [eh|].
    + destruct (invoke_spec ClientError eh (delivery_error t) w1) as (w2 & E2 & L2 & G2).
      rewrite E2. pose proof (grows_trans G1 G2) as G.
      destruct (snd (handler_body eh (delivery_error t))) as [|t2]; simpl.
      * split; [rewrite L2, L1, <- app_assoc; reflexivity|].
        exact (settle_pending_old _ G Hp P).
      * split; [rewrite L2, L1, <- !app_assoc; reflexivity|].
        change (settlement p w2 = None). now rewrite (grows_old G Hp).
    + split; [exact L1|]. exact (settle_pending_old _ G1 Hp P).
Qed.

(** The callback queued by the proxy's [send], run in [w]. *)
Lemma deliver_to_client_spec (m : JSONRPCMessage) (w : World) :
  let w3 := run_timer (DeliverToClient m) w in
  extends w w3 /\
  match _clientMessageHandler (transport w) with
  | None =>
      match _clientErrorHandler (transport w) with
      | None => log w3 = log w
      | Some eh =>
          match snd (handler_body eh not_a_function) with
          | Returns => log w3 = log w ++ [ClientError (handler_id eh) not_a_function]
          | Throws t2 =>
              log w3 = log w ++ [ClientError (handler_id eh) not_a_function; Uncaught t2]
          end
      end
  | Some hc =>
      let received := ClientReceived (handler_id hc) m in
      match snd (handler_body hc m) with
      | Returns => log w3 = log w ++ [received]
      | Throws t =>
          let err := delivery_error t in
          match _clientErrorHandler (transport (fst (invoke ClientReceived hc m w))) with
          | None => log w3 = log w ++ [received]
          | Some eh =>
              match snd (handler_body eh err) with
              | Returns => log w3 = log w ++ [received; ClientError (handler_id eh) err]
              | Throws t2 =>
                  log w3 = log w ++ [received; ClientError (handler_id eh) err; Uncaught t2]
              end
          end
      end
  end.
Proof.
  split; [apply run_timer_extends|]. simpl.
  destruct (_clientMessageHandler (transport w)) as [hc|].
  - destruct (invoke_spec ClientReceived hc m w) as (w1 & E1 & L1 & G1). rewrite E1. simpl.
    destruct (snd (handler_body hc m)) as [|t]; [exact L1|].
    unfold report_error. destruct (_clientErrorHandler (transport w1)) as [eh|];
      [|exact L1].
    destruct (invoke_spec ClientError eh (delivery_error t) w1) as (w2 & E2 & L2 & G2).
    rewrite E2.
    destruct (snd (handler_body eh (delivery_error t))) as [|t2]; simpl;
      rewrite L2, L1, <- ?app_assoc; reflexivity.
  - unfold report_error. simpl.
    destruct (_clientErrorHandler (transport w)) as [eh|]; [|reflexivity].
    destruct (invoke_spec ClientError eh not_a_function w) as (w2 & E2 & L2 & G2).
    rewrite E2.
    destruct (snd (handler_body eh not_a_function)) as [|t2]; simpl;
      rewrite L2, <- ?app_assoc; reflexivity.
Qed.

(** ** C5: a [start] whose [connect] fails *)




Lemma well_formed_settle {w : World} {p : nat} (s : Settlement) :
  well_formed w -> p < next_promise w -> well_formed (settle p s w).
Proof.
  intros [WP WJ] Hp. split; [|exact WJ].
  intros q s' Hin. simpl in *. apply in_app_or in Hin. destruct Hin as [Hin|[E|[]]].
  - exact (WP _ _ Hin).
  - now inversion E; subst.
Qed.




(** ** C6: the delivery towards the responder *)

Lemma send_accepted (m : JSONRPCMessage) (w : World) (h : MessageHandler) :
  well_formed w ->
  _started (transport w) = true -> _isServerConnected (transport w) = true ->
  _serverMessageHandler (transport w) = Some h ->
  fst (send m w) = next_promise w /\
  snd (send m w) = setTimeout (DeliverToServer h m (next_promise w)) (snd (new_promise w)) /\
  settlement (next_promise w) (snd (send m w)) = None.
Proof.
  intros WF St Cn Hs. unfold send. simpl. rewrite St, Hs, Cn. simpl.
  repeat split. apply (well_formed_pending WF). lia.
Qed.

Lemma turns_quiescent (n : nat) (w : World) : step w = None -> turns n w = w.
Proof. intros E. destruct n; simpl; [reflexivity|]. now rewrite E. Qed.




(** ** C7: the delivery towards the client *)

Lemma proxy_send_fulfilled (m : JSONRPCMessage) (w : World) :
  well_formed w -> settlement (fst (Proxy.send m w)) (snd (Proxy.send m w)) = Some Fulfilled.
Proof.
  intros WF. unfold Proxy.send. simpl.
  assert (P : settlement (next_promise w) (snd (new_promise w)) = None)
    by (apply (well_formed_pending WF); lia).
  destruct (_clientMessageHandler (transport w)); simpl;
    now apply settlement_settle_fresh.
Qed.

(** C7 -- deliveries towards the client are fire and forget.  The promise
    returned by the proxy's [send] is fulfilled when the call returns,
    whether or not a delivery was queued, and nothing that runs later changes
    that.  When the queued callback runs and the client's message handler
    throws [t], the client's error handler, if one is set then, is called
    with the error derived from [t] ([t] itself if [t] is an [Error]); the
    promise of the proxy's [send] is still fulfilled. *)
Theorem proxy_send_fire_and_forget (m : JSONRPCMessage) (w : World)
    (WF : well_formed w) :
  let p := fst (Proxy.send m w) in
  let w1 := snd (Proxy.send m w) in
  settlement p w1 = Some Fulfilled /\
  log w1 = log w /\
  (_clientMessageHandler (transport w) <> None ->
   timers w1 = timers w ++ [DeliverToClient m]) /\
  (forall n, settlement p (turns n w1) = Some Fulfilled) /\
  (forall e, delivery_error (Js.ThrownError e) = e) /\
  forall w2,
    extends w1 w2 ->
    let w3 := run_timer (DeliverToClient m) w2 in
    settlement p w3 = Some Fulfilled /\
    forall hc t,
      _clientMessageHandler (transport w2) = Some hc ->
      snd (handler_body hc m) = Throws t ->
      let received := ClientReceived (handler_id hc) m in
      match _clientErrorHandler (transport (fst (invoke ClientReceived hc m w2))) with
      | None => log w3 = log w2 ++ [received]
      | Some eh =>
          exists rest,
            log w3 = log w2 ++ [received; ClientError (handler_id eh) (delivery_error t)]
                     ++ rest
      end.
Proof.
  intros p w1. pose proof (proxy_send_fulfilled m w WF) as F. fold p w1 in F.
  split; [exact F|]. split.
  { subst w1. unfold Proxy.send. simpl.
    now destruct (_clientMessageHandler (transport w)). }
  split.
  { subst w1. unfold Proxy.send. simpl.
    destruct (_clientMessageHandler (transport w)); [reflexivity|]. intros X. now elim X. }
  split; [intros n; exact (extends_settled (turns_extends n w1) F)|].
  split; [reflexivity|].
  intros w2 X w3. destruct (deliver_to_client_spec m w2) as [X3 L]. fold w3 in X3, L.
  split; [exact (extends_settled (extends_trans X X3) F)|].
  intros hc t Hc Ht. rewrite Hc, Ht in L. simpl in L.
  destruct (_clientErrorHandler (transport (fst (invoke ClientReceived hc m w2))))
    as [eh|]; [|exact L].
  destruct (snd (handler_body eh (delivery_error t))) as [|t2].
  - exists []. now rewrite app_nil_r.
  - exists [Uncaught t2]. exact L.
Qed.

(** The test "calls onerror if client handler throws": the proxy sends while
    the throwing handler is registered, [errors.push] is registered
    afterwards, and in the next turn it receives [new Error("client fail")];
    the promise of the proxy's [send] is fulfilled throughout. *)
Lemma proxy_send_fire_and_forget_witness :
  well_formed Sample.client_fail_bridge /\
  settlement (fst (Proxy.send Sample.hi Sample.client_fail_bridge))
    (snd (Proxy.send Sample.hi Sample.client_fail_bridge)) = Some Fulfilled /\
  settlement (fst (Proxy.send Sample.hi Sample.client_fail_bridge))
    (turns 1 (set_onerror (Some Test.errors_push)
                (snd (Proxy.send Sample.hi Sample.client_fail_bridge))))
  = Some Fulfilled /\
  exists rest,
    log (turns 1 (set_onerror (Some Test.errors_push)
                    (snd (Proxy.send Sample.hi Sample.client_fail_bridge))))
    = log (set_onerror (Some Test.errors_push)
             (snd (Proxy.send Sample.hi Sample.client_fail_bridge)))
      ++ [ClientReceived (handler_id Test.client_fail) Sample.hi;
          ClientError (handler_id Test.errors_push) (Js.new_Error "client fail")]
      ++ rest.
Proof.
  assert (WF : well_formed Sample.client_fail_bridge) by concrete_well_formed.
  pose proof (proxy_send_fire_and_forget Sample.hi Sample.client_fail_bridge WF)
    as (F & _ & _ & _ & _ & D).
  specialize (D (pop_timer [] (set_onerror (Some Test.errors_push)
                                 (snd (Proxy.send Sample.hi Sample.client_fail_bridge))))
                (extends_refl _)).
  destruct D as [F3 D].
  split; [exact WF|]. split; [exact F|]. split; [exact F3|].
  exact (D Test.client_fail (Js.ThrownError (Js.new_Error "client fail")) eq_refl eq_refl).
Defined.

(** ** C10: what the error handler is given *)





(** ** C1: a request and its answer *)

Ltac decide_eqb :=
  repeat match goal with
         | |- context [Nat.eqb ?a ?a] => rewrite (Nat.eqb_refl a)
         | |- context [Nat.eqb ?a ?b] =>
             replace (Nat.eqb a b) with false by (symmetry; apply Nat.eqb_neq; lia)
         end.

(** The delivery of a request that the server handler answers through the
    proxy, while the client has a message handler. *)
Lemma answer_turn (w : World) (hs hc : MessageHandler) (m r : JSONRPCMessage) (p : nat) :
  _clientMessageHandler (transport w) = Some hc ->
  handler_body hs m = ([OnProxy (ProxySend r)], Returns) ->
  run_timer (DeliverToServer hs m p) w
  = settle p Fulfilled
      (settle (next_promise w) Fulfilled
         (setTimeout (DeliverToClient r)
            (snd (new_promise (emit (ServerReceived (handler_id hs) m) w))))).
Proof.
  intros Hc Ans. simpl. unfold invoke. rewrite Ans. simpl.
  unfold Proxy.send. simpl. now rewrite Hc.
Qed.

(** Old promises that the promise jobs of the turn may have fulfilled are
    not among those handed out from [next_promise] on. *)
Lemma fresh_not_thenable {w : World} {p : nat} :
  well_formed w -> next_promise w <= p -> ~ In p (thenables (jobs w)).
Proof. intros [_ WJ] Hp Hin. specialize (WJ _ Hin). lia. Qed.

(** On an idle, started bridge whose peer is connected: the turn after
    [send(m)] calls the server handler and fulfils the promise, the turn
    after that calls the client's handler with the answer. *)
Lemma round_trip_when_started (w : World) (hs hc : MessageHandler) (m r : JSONRPCMessage)
    (WF : well_formed w) (I : idle w)
    (St : _started (transport w) = true)
    (Cn : _isServerConnected (transport w) = true)
    (Hs : _serverMessageHandler (transport w) = Some hs)
    (Hc : _clientMessageHandler (transport w) = Some hc)
    (Ans : handler_body hs m = ([OnProxy (ProxySend r)], Returns)) :
  let p := fst (send m w) in
  let w1 := turns 1 (snd (send m w)) in
  let w2 := turns 1 w1 in
  settlement p w1 = Some Fulfilled /\
  log w1 = log w ++ [ServerReceived (handler_id hs) m] /\
  exists rest, log w2 = log w1 ++ ClientReceived (handler_id hc) r :: rest.
Proof.
  intros p w1 w2. destruct I as [T M].
  destruct (send_accepted m w hs WF St Cn Hs) as (Ep & E1 & P).
  destruct (step_timer_spec (snd (send m w)) (DeliverToServer hs m (next_promise w)) [])
    as (l & F & _ & ES).
  { rewrite E1. exact M. }
  { rewrite E1. simpl. now rewrite T. }
  assert (E : w1 =
              settle (next_promise w) Fulfilled
                (settle (S (next_promise w)) Fulfilled
                   (mkWorld (transport w) [DeliverToClient r] [] (promises w ++ l)
                      (S (S (next_promise w)))
                      (log w ++ [ServerReceived (handler_id hs) m])))).
  { subst w1. rewrite (turns_step ES), E1.
    erewrite answer_turn; [|exact Hc|exact Ans]. reflexivity. }
  split.
  - subst p. rewrite Ep, E. unfold settlement. cbn -[Nat.eqb].
    rewrite !lookup_settlement_app.
    rewrite (well_formed_pending WF (le_n _) : lookup_settlement _ (promises w) = None).
    destruct (lookup_settlement (next_promise w) l) as [s|] eqn:L;
      [now rewrite (fulfils_fulfilled F L)|].
    cbn -[Nat.eqb]. decide_eqb. reflexivity.
  - split; [rewrite E; reflexivity|].
    destruct (step_timer_spec w1 (DeliverToClient r) []) as (l' & _ & _ & ES');
      [rewrite E; reflexivity..|].
    subst w2. rewrite (turns_step ES').
    match goal with |- context [run_timer _ ?w] => set (w0 := w) end.
    assert (Hc0 : _clientMessageHandler (transport w0) = Some hc)
      by (subst w0; rewrite E; exact Hc).
    assert (L0 : log w0 = log w1) by reflexivity.
    clearbody w0. destruct (deliver_to_client_spec r w0) as [_ D].
    rewrite Hc0, L0 in D. simpl in D.
    destruct (snd (handler_body hc r)) as [|t]; [now exists []|].
    destruct (_clientErrorHandler (transport (fst (invoke ClientReceived hc r w0))))
      as [eh|]; [|now exists []].
    destruct (snd (handler_body eh (delivery_error t))) as [|t2]; eexists; exact D.
Qed.

(** [await transport.start()] on an idle bridge whose responder's [connect]
    registers [hs] and succeeds. *)
Lemma start_registers (w0 : World) (hs : MessageHandler)
    (WF : well_formed w0) (I : idle w0)
    (St : _started (transport w0) = false)
    (Srv : _mcpServer (transport w0) = mkServer [ProxySetOnMessage (Some hs)] Returns) :
  let w := turns 1 (snd (start w0)) in
  settlement (fst (start w0)) w = Some Fulfilled /\
  well_formed w /\ idle w /\ log w = log w0 /\
  _started (transport w) = true /\
  _isServerConnected (transport w) = true /\
  _serverMessageHandler (transport w) = Some hs /\
  _clientMessageHandler (transport w) = _clientMessageHandler (transport w0).
Proof.
  destruct I as [T M].
  assert (P : lookup_settlement (next_promise w0) (promises w0) = None)
    by exact (well_formed_pending WF (le_n _)).
  assert (Ea : start w0 =
               (next_promise w0,
                await (AfterConnect (next_promise w0) Returns)
                  (Proxy.set_onmessage (Some hs) (snd (new_promise w0)))))
    by (unfold start; simpl; rewrite St, Srv; reflexivity).
  assert (WFa : well_formed (snd (start w0)))
    by exact (grows_well_formed (start_grows w0) WF).
  destruct (step_continuation_spec (snd (start w0)) (AfterConnect (next_promise w0) Returns) [])
    as (l & rest & F & C & Tr & ES).
  { rewrite Ea. simpl. rewrite microtasks_await. simpl. unfold microtasks in *. simpl.
    now rewrite M. }
  simpl. rewrite ES. rewrite Ea in *. simpl in *.
  split; [exact (settle_fulfilled_after_jobs _ _ P F)|]. split.
  - apply well_formed_settle; [|simpl; lia].
    exact (well_formed_after_jobs _ _ _ _ _ _ WFa F Tr).
  - split; [split; [exact T|exact C]|]. now repeat split.
Qed.

(** C1 -- round trip.  Take a bridge that is not started, with [hc] as the
    client's message handler, whose responder's [connect] registers a handler
    [hs] on the proxy; let [hs] answer the request [m] by sending [r] through
    the proxy.  [start] completes in the next turn.  After [send(m)], one
    turn of the event loop calls [hs] with [m] and fulfils the promise of
    [send]; the turn after that calls [hc] with [r], the very message the
    responder passed to the proxy. *)
Theorem round_trip_delivery (w0 : World) (hs hc : MessageHandler) (m r : JSONRPCMessage)
    (WF : well_formed w0) (I : idle w0)
    (St : _started (transport w0) = false)
    (Hc : _clientMessageHandler (transport w0) = Some hc)
    (Srv : _mcpServer (transport w0) = mkServer [ProxySetOnMessage (Some hs)] Returns)
    (Ans : handler_body hs m = ([OnProxy (ProxySend r)], Returns)) :
  let w := turns 1 (snd (start w0)) in
  let p := fst (send m w) in
  let w1 := turns 1 (snd (send m w)) in
  let w2 := turns 1 w1 in
  settlement (fst (start w0)) w = Some Fulfilled /\
  settlement p w1 = Some Fulfilled /\
  log w1 = log w0 ++ [ServerReceived (handler_id hs) m] /\
  exists rest, log w2 = log w1 ++ ClientReceived (handler_id hc) r :: rest.
Proof.
  intros w p w1 w2.
  destruct (start_registers w0 hs WF I St Srv) as (F & WF' & I' & L & St' & Cn & Hs & Hc').
  fold w in F, WF', I', L, St', Cn, Hs, Hc'. rewrite Hc in Hc'.
  destruct (round_trip_when_started w hs hc m r WF' I' St' Cn Hs Hc' Ans) as (F1 & L1 & D).
  fold p w1 in F1, L1. fold w1 w2 in D. rewrite L in L1.
  split; [exact F|]. split; [exact F1|]. split; [exact L1|exact D].
Qed.

(** The scenario of the test suite: the echo responder, [received.push] as
    [onmessage], [await transport.start()], then the request with id ["1"],
    method ["echo"] and params [{foo: "bar"}].  The client's handler receives
    the echoed result. *)
Lemma round_trip_delivery_witness :
  well_formed Sample.echo_bridge /\
  idle Sample.echo_bridge /\
  _started (transport Sample.echo_bridge) = false /\
  _clientMessageHandler (transport Sample.echo_bridge) = Some Test.collect /\
  _mcpServer (transport Sample.echo_bridge)
  = mkServer [ProxySetOnMessage (Some Test.echo)] Returns /\
  handler_body Test.echo Test.request
  = ([OnProxy (ProxySend [("jsonrpc", Js.Str "2.0");
                          ("id", Js.Str "1");
                          ("result", Js.Object [("echoed", Js.Object [("foo", Js.Str "bar")])])])],
     Returns) /\
  settlement 0 (turns 1 (snd (start Sample.echo_bridge))) = Some Fulfilled /\
  settlement 1 (turns 1 (snd (send Test.request (turns 1 (snd (start Sample.echo_bridge))))))
  = Some Fulfilled /\
  exists rest,
    log (turns 2 (snd (send Test.request (turns 1 (snd (start Sample.echo_bridge))))))
    = [ServerReceived (handler_id Test.echo) Test.request]
      ++ ClientReceived (handler_id Test.collect)
           [("jsonrpc", Js.Str "2.0");
            ("id", Js.Str "1");
            ("result", Js.Object [("echoed", Js.Object [("foo", Js.Str "bar")])])]
         :: rest.
Proof.
  assert (WF : well_formed Sample.echo_bridge) by concrete_well_formed.
  split; [exact WF|]. split; [split; reflexivity|]. split; [reflexivity|].
  split; [reflexivity|]. split; [reflexivity|]. split; [reflexivity|].
  pose proof (round_trip_delivery Sample.echo_bridge Test.echo Test.collect Test.request
                (Test.echo_response Test.request)
                WF (conj eq_refl eq_refl) eq_refl eq_refl eq_refl eq_refl) as H.
  vm_compute in H. destruct H as (F0 & F & _ & rest & D).
  split; [vm_compute; exact F0|]. split; [vm_compute; exact F|].
  exists rest. vm_compute. exact D.
Defined.

(** * Further properties of the class *)

(** ** Starting twice *)

(** X1 -- [start] on a started transport.  The promise is rejected with the
    already-started error when the call returns; the responder's [connect] is
    not called, no field is written, nothing is queued and no handler is
    called, so the transport stays started with its wiring intact. *)
Theorem start_when_started (w : World) (WF : well_formed w)
    (St : _started (transport w) = true) :
  settlement (fst (start w)) (snd (start w))
  = Some (Rejected (Js.ThrownError AlreadyStarted)) /\
  quiet w (snd (start w)).
Proof.
  assert (P : settlement (next_promise w) (snd (new_promise w)) = None)
    by (apply (well_formed_pending WF); lia).
  unfold start. simpl. rewrite St. simpl. rewrite (settlement_settle_fresh _ P).
  repeat split.
Qed.

(** The test "throws if started twice". *)
Lemma start_when_started_witness :
  well_formed started_bridge /\
  _started (transport started_bridge) = true /\
  settlement (fst (start started_bridge)) (snd (start started_bridge))
  = Some (Rejected (Js.ThrownError AlreadyStarted)).
Proof.
  assert (WF : well_formed started_bridge) by concrete_well_formed.
  split; [exact WF|]. split; [reflexivity|].
  exact (proj1 (start_when_started started_bridge WF eq_refl)).
Defined.

(** ** A responder that registers no handler *)

Lemma send_refused_peer_unavailable (w : World) :
  well_formed w -> _started (transport w) = true ->
  _serverMessageHandler (transport w) = None \/ _isServerConnected (transport w) = false ->
  refuses_peer_unavailable w.
Proof.
  intros WF St H m.
  assert (P : settlement (next_promise w) (snd (new_promise w)) = None)
    by (apply (well_formed_pending WF); lia).
  unfold send. simpl. rewrite St. simpl.
  destruct (_serverMessageHandler (transport w)) as [h|];
    [destruct (_isServerConnected (transport w))|]; simpl;
    try (rewrite (settlement_settle_fresh _ P); repeat split).
  destruct H; discriminate.
Qed.

(** X2 -- [start] with a responder that registers no handler.  When [connect]
    has succeeded and the server handler slot is still empty, the resumed
    [start] does not complete: it queues its second check behind one timer
    tick, the promise stays pending and the transport is not started.  When
    the check runs and the slot is still empty, the warning is printed, and
    the transport is marked started and the promise fulfilled all the same;
    every [send] is then refused with the peer-unavailable error.  A handler
    registered in the meantime silences the warning. *)
Theorem start_without_handler (w : World) (WF : well_formed w) (I : idle w)
    (St : _started (transport w) = false)
    (Ok : connect_result (_mcpServer (transport w)) = Returns)
    (Hn : _serverMessageHandler (transport (snd (start w))) = None)
    (Tn : timers (snd (start w)) = []) :
  let p := fst (start w) in
  let w1 := turns 1 (snd (start w)) in
  let w2 := turns 1 w1 in
  (_started (transport w1) = false /\ settlement p w1 = None /\
   timers w1 = [StartRecheck p] /\ log w1 = log w) /\
  (_started (transport w2) = true /\ settlement p w2 = Some Fulfilled /\
   log w2 = log w ++ [ConsoleWarn no_handler_warning] /\
   refuses_peer_unavailable w2) /\
  (forall w' q, _serverMessageHandler (transport w') <> None ->
                log (run_timer (StartRecheck q) w') = log w' /\
                _started (transport (run_timer (StartRecheck q) w')) = true).
Proof.
  intros p w1 w2. destruct I as [T M].
  destruct (start_suspends w WF St) as (P & Ep & J1 & Mk & S1 & L1 & G1).
  fold p in P, Ep. rewrite M, Ok, <- Ep in Mk. simpl in Mk.
  set (wa := snd (start w)) in *.
  assert (WF1 : well_formed wa) by exact (grows_well_formed G1 WF).
  assert (Hp : p < next_promise wa).
  { subst wa. rewrite Ep. unfold start. simpl. rewrite St. simpl.
    pose proof (proxy_run_grows (connect_calls (_mcpServer (transport w)))
                  (snd (new_promise w))) as [Hx _]. simpl in Hx. lia. }
  assert (Np : ~ In p (thenables (jobs wa))).
  { rewrite J1, thenables_app. simpl. rewrite app_nil_r, Ep.
    exact (fresh_not_thenable WF (le_n _)). }
  destruct (step_continuation_spec wa _ _ Mk) as (l & rest & F & C & Tr & ES).
  set (wj := mkWorld (transport wa) (timers wa) rest (promises wa ++ l)
               (next_promise wa) (log wa)) in *.
  assert (WFj : well_formed wj) by exact (well_formed_after_jobs wa _ _ _ _ _ WF1 F Tr).
  assert (Pj : settlement p wj = None) by exact (pending_after_jobs p _ P F Np).
  assert (E1 : w1 = setTimeout (StartRecheck p) wj).
  { subst w1. rewrite (turns_step ES). simpl. now rewrite Hn. }
  clearbody w1.
  assert (WFw1 : well_formed w1).
  { rewrite E1. eapply grows_well_formed; [|exact WFj]. apply grows_same; reflexivity. }
  destruct (step_timer_spec w1 (StartRecheck p) []) as (l2 & F2 & _ & ES2).
  { rewrite E1. exact C. }
  { rewrite E1. simpl. now rewrite Tn. }
  set (wk := mkWorld (transport w1) [] [] (promises w1 ++ l2) (next_promise w1) (log w1))
    in *.
  assert (WFk : well_formed wk)
    by (apply (well_formed_after_jobs w1); [exact WFw1|exact F2|intros q []]).
  assert (E2 : w2 = settle p Fulfilled
                      (assign (with_started true)
                         (emit (ConsoleWarn no_handler_warning) wk))).
  { subst w2. rewrite (turns_step ES2). subst wk. rewrite E1. simpl. now rewrite Hn. }
  split; [|split].
  - rewrite E1. simpl. rewrite Tn. repeat split; assumption.
  - rewrite E2. split; [reflexivity|]. split.
    + unfold settlement. subst wk. simpl. rewrite E1.
      exact (settle_fulfilled_after_jobs p _ Pj F2).
    + split; [subst wk; simpl; rewrite E1; simpl; now rewrite L1|].
      apply send_refused_peer_unavailable;
        [| reflexivity | left; subst wk; simpl; rewrite E1; exact Hn].
      apply well_formed_settle; [|subst wk; simpl; rewrite E1; exact Hp].
      eapply grows_well_formed; [|exact WFk]. apply grows_same; reflexivity.
  - intros w' q H. simpl.
    destruct (_serverMessageHandler (transport w')); [split; reflexivity|now elim H].
Qed.

(** A new bridge to the responder that registers nothing. *)
Lemma start_without_handler_witness :
  well_formed (Test.fresh More.silent_server) /\
  idle (Test.fresh More.silent_server) /\
  _started (transport (Test.fresh More.silent_server)) = false /\
  connect_result (_mcpServer (transport (Test.fresh More.silent_server))) = Returns /\
  _serverMessageHandler (transport (snd (start (Test.fresh More.silent_server)))) = None /\
  timers (snd (start (Test.fresh More.silent_server))) = [] /\
  _started (transport (turns 2 (snd (start (Test.fresh More.silent_server))))) = true /\
  log (turns 2 (snd (start (Test.fresh More.silent_server))))
  = [ConsoleWarn no_handler_warning] /\
  refuses_peer_unavailable (turns 2 (snd (start (Test.fresh More.silent_server)))).
Proof.
  assert (WF : well_formed (Test.fresh More.silent_server)) by apply well_formed_boot.
  split; [exact WF|]. split; [split; reflexivity|]. split; [reflexivity|].
  split; [reflexivity|]. split; [reflexivity|]. split; [reflexivity|].
  pose proof (start_without_handler (Test.fresh More.silent_server) WF
                (conj eq_refl eq_refl) eq_refl eq_refl eq_refl eq_refl)
    as (_ & (S2 & _ & L2 & R2) & _).
  split; [exact S2|]. split; [exact L2|exact R2].
Defined.

(** ** What the responder cannot do *)

Lemma proxy_exec_client_side (c : ProxyCall) (w : World) :
  client_side (transport (Proxy.exec c w)) = client_side (transport w).
Proof.
  destruct c as [[h|]|m| |]; simpl; try reflexivity.
  unfold Proxy.send. simpl. now destruct (_clientMessageHandler (transport w)).
Qed.

(** X3 -- the proxy keeps the responder away from the client's side.  Whatever
    calls the responder makes on the proxy, [_started], the responder
    reference and the client's three handler slots keep their values, no
    handler is called and no microtask is queued; this holds in particular
    for the calls [connect] makes inside [start]. *)
Theorem proxy_calls_leave_client_side (cs : list ProxyCall) (w : World) :
  client_side (transport (Proxy.run cs w)) = client_side (transport w) /\
  log (Proxy.run cs w) = log w /\
  microtasks (Proxy.run cs w) = microtasks w /\
  client_side (transport (snd (start w))) = client_side (transport w).
Proof.
  assert (H : forall cs w, client_side (transport (Proxy.run cs w))
                           = client_side (transport w)).
  { clear. induction cs as [|c cs IH]; intros w; simpl; [reflexivity|].
    unfold Proxy.run in IH. now rewrite IH, proxy_exec_client_side. }
  split; [apply H|]. split; [apply proxy_run_log|]. split; [apply proxy_run_microtasks|].
  unfold start. simpl. destruct (_started (transport w)); simpl; [reflexivity|].
  apply (H _ (snd (new_promise w))).
Qed.

(** ** Nothing happens within the calling turn *)

(** X4 -- every handler call is deferred, with a responder whose [connect]
    is an [async] function.  Such a responder, the only kind an [McpServer]
    describes here, reports a failure of [connect] by rejecting the promise
    it returns, which [start] meets at its [await]; a [connect] that throws
    before returning a promise would make [start] call the client's error
    handler inside the call, and is not covered.  With such a responder, no
    sequence of calls on the transport or on the proxy calls a handler before
    it returns: the log is the same afterwards.  And no such sequence starts
    a stopped transport: [_started] is still false, since only the
    resumption of [start] sets it, so a [send] issued later in the same turn
    is refused with the not-started error. *)
Theorem calls_are_deferred (cs : list Call) (w : World) :
  log (run_calls cs w) = log w /\
  (_started (transport w) = false ->
   _started (transport (run_calls cs w)) = false /\
   (well_formed w -> refuses_not_started (run_calls cs w))).
Proof.
  split; [apply run_calls_log|]. intros St.
  pose proof (run_calls_stopped cs St) as [S' _]. split; [exact S'|].
  intros WF. apply send_refused_not_started; [|exact S'].
  exact (grows_well_formed (run_calls_grows cs w) WF).
Qed.

(** [start()] followed at once by [send]: the request is refused. *)
Lemma calls_are_deferred_witness :
  _started (transport Sample.echo_bridge) = false /\
  well_formed Sample.echo_bridge /\
  refuses_not_started (run_calls [CallStart; CallSend Test.request] Sample.echo_bridge).
Proof.
  assert (WF : well_formed Sample.echo_bridge) by apply well_formed_boot.
  split; [reflexivity|]. split; [exact WF|].
  exact (proj2 (proj2 (calls_are_deferred [CallStart; CallSend Test.request]
                         Sample.echo_bridge) eq_refl) WF).
Defined.

(** ** A connected peer has a handler *)

Lemma peer_ready_same (w w' : World) :
  _isServerConnected (transport w') = _isServerConnected (transport w) ->
  _serverMessageHandler (transport w') = _serverMessageHandler (transport w) ->
  peer_ready w -> peer_ready w'.
Proof. unfold peer_ready. intros -> ->. exact (fun H => H). Qed.

Lemma peer_ready_disconnected (w : World) :
  _isServerConnected (transport w) = false -> peer_ready w.
Proof. unfold peer_ready. intros ->. discriminate. Qed.

Lemma proxy_exec_peer_ready (c : ProxyCall) (w : World) :
  peer_ready w -> peer_ready (Proxy.exec c w).
Proof.
  intros R. destruct c as [[h|]|m| |]; simpl.
  - intros _. discriminate.
  - now apply peer_ready_disconnected.
  - apply (peer_ready_same w); [| |exact R]; unfold Proxy.send; simpl;
      now destruct (_clientMessageHandler (transport w)).
  - now apply (peer_ready_same w).
  - now apply peer_ready_disconnected.
Qed.

Lemma proxy_run_peer_ready (cs : list ProxyCall) (w : World) :
  peer_ready w -> peer_ready (Proxy.run cs w).
Proof.
  revert w. induction cs as [|c cs IH]; intros w R; simpl; [exact R|].
  apply IH. now apply proxy_exec_peer_ready.
Qed.

Lemma send_transport (m : JSONRPCMessage) (w : World) :
  transport (snd (send m w)) = transport w.
Proof.
  unfold send. simpl. destruct (_started (transport w)); simpl; [|reflexivity].
  destruct (_serverMessageHandler (transport w)); [|reflexivity].
  now destruct (_isServerConnected (transport w)).
Qed.

Lemma exec_peer_ready (c : Call) (w : World) : peer_ready w -> peer_ready (exec c w).
Proof.
  intros R. destruct c as [pc|h|h|h| | |m]; simpl.
  - now apply proxy_exec_peer_ready.
  - now apply (peer_ready_same w).
  - now apply (peer_ready_same w).
  - now apply (peer_ready_same w).
  - unfold start. simpl. destruct (_started (transport w)); simpl.
    + now apply (peer_ready_same w).
    + apply (peer_ready_same
               (Proxy.run (connect_calls (_mcpServer (transport w))) (snd (new_promise w))));
        [reflexivity|reflexivity|].
      apply proxy_run_peer_ready. now apply (peer_ready_same w).
  - unfold close. simpl. destruct (_started (transport w)); simpl.
    + now apply peer_ready_disconnected.
    + now apply (peer_ready_same w).
  - apply (peer_ready_same w); [| |exact R]; now rewrite send_transport.
Qed.

Lemma run_calls_peer_ready (cs : list Call) (w : World) :
  peer_ready w -> peer_ready (run_calls cs w).
Proof.
  revert w. induction cs as [|c cs IH]; intros w R; simpl; [exact R|].
  apply IH. now apply exec_peer_ready.
Qed.

Lemma invoke_peer_ready {A : Type} (ev : nat -> A -> Event) (h : Handler Call A) (a : A)
    (w : World) : peer_ready w -> peer_ready (fst (invoke ev h a w)).
Proof.
  intros R. rewrite invoke_world. apply run_calls_peer_ready.
  now apply (peer_ready_same w).
Qed.

Lemma report_error_peer_ready (err : Js.Error) (w : World) :
  peer_ready w -> peer_ready (fst (report_error err w)).
Proof.
  intros R. unfold report_error. destruct (_clientErrorHandler (transport w)).
  - now apply invoke_peer_ready.
  - exact R.
Qed.

Ltac peer_ready_after H :=
  match goal with
  | |- context [invoke ?ev ?h ?a ?w] =>
      let X := fresh "X" in
      pose proof (@invoke_peer_ready _ ev h a w H) as X;
      destruct (invoke ev h a w) as [? [|?]]; simpl in X
  | |- context [report_error ?e ?w] =>
      let X := fresh "X" in
      pose proof (report_error_peer_ready e w H) as X;
      destruct (report_error e w) as [? [|?]]; simpl in X
  end.

Lemma run_timer_peer_ready (t : Timer) (w : World) :
  peer_ready w -> peer_ready (run_timer t w).
Proof.
  intros R. destruct t as [m|p|[h|]|h m p]; simpl.
  - destruct (_clientMessageHandler (transport w)) as [h|].
    + peer_ready_after R; [exact X|]. peer_ready_after X; [exact X0|].
      now apply (peer_ready_same w1).
    + peer_ready_after R; [exact X|]. now apply (peer_ready_same w0).
  - destruct (_serverMessageHandler (transport w)) eqn:E;
      apply (peer_ready_same w); try reflexivity; exact R.
  - peer_ready_after R; [exact X|]. now apply (peer_ready_same w0).
  - exact R.
  - peer_ready_after R; [now apply (peer_ready_same w0)|].
    peer_ready_after X; [now apply (peer_ready_same w1)|].
    now apply (peer_ready_same w1).
Qed.

Lemma run_microtask_peer_ready (k : Microtask) (w : World) :
  peer_ready w -> peer_ready (run_microtask k w).
Proof.
  intros R. destruct k as [p [|t]]; simpl.
  - destruct (_serverMessageHandler (transport w)) eqn:E;
      apply (peer_ready_same w); try reflexivity; exact R.
  - peer_ready_after R; [now apply (peer_ready_same w0)|].
    now apply (peer_ready_same w0).
Qed.

Lemma promise_jobs_transport (w : World) : transport (promise_jobs w) = transport w.
Proof. destruct (promise_jobs_spec w) as (l & rest & E & _). now rewrite E. Qed.

Lemma run_job_peer_ready (j : Job) (w : World) : peer_ready w -> peer_ready (run_job j w).
Proof.
  intros R. destruct j as [k|p|p]; simpl.
  - now apply run_microtask_peer_ready.
  - now apply (peer_ready_same w).
  - now apply (peer_ready_same w).
Qed.

Lemma step_peer_ready {w w' : World} : step w = Some w' -> peer_ready w -> peer_ready w'.
Proof.
  intros E R.
  assert (RJ : peer_ready (promise_jobs w))
    by (apply (peer_ready_same w); [now rewrite promise_jobs_transport..|exact R]).
  revert E. unfold step. destruct (jobs (promise_jobs w)) as [|j js].
  - destruct (timers (promise_jobs w)) as [|t ts].
    + destruct (jobs w); [discriminate|]. now intros [= <-].
    + intros [= <-]. apply run_timer_peer_ready.
      now apply (peer_ready_same (promise_jobs w)).
  - intros [= <-]. apply run_job_peer_ready.
    now apply (peer_ready_same (promise_jobs w)).
Qed.

Lemma turns_peer_ready (n : nat) (w : World) : peer_ready w -> peer_ready (turns n w).
Proof.
  revert w. induction n as [|n IH]; intros w R; simpl; [exact R|].
  destruct (step w) as [w'|] eqn:E; [|exact R].
  apply IH. exact (step_peer_ready E R).
Qed.

Lemma drive_peer_ready (acts : list Action) (w : World) :
  peer_ready w -> peer_ready (drive acts w).
Proof.
  revert w. induction acts as [|a acts IH]; intros w R; simpl; [exact R|].
  apply IH. destruct a as [c|]; [now apply exec_peer_ready|].
  now apply (turns_peer_ready 1).
Qed.

(** X5 -- a peer marked connected has a handler.  On a newly constructed
    transport, and after any sequence of calls and turns of the event loop
    from there, [_isServerConnected] is true only while a server handler is
    registered.  On such a transport the second test of [send] therefore
    comes down to the flag: a started transport whose peer is marked
    connected accepts every message, with the registered handler captured in
    the queued delivery. *)
Theorem connected_peer_has_handler (s : McpServer) (t : PseudoTransport)
    (acts : list Action) :
  new_PseudoTransport (Some s) = inr t ->
  let w := drive acts (boot t) in
  peer_ready w /\
  (_started (transport w) = true -> _isServerConnected (transport w) = true ->
   forall m, exists h,
     _serverMessageHandler (transport w) = Some h /\
     snd (send m w) = setTimeout (DeliverToServer h m (next_promise w)) (snd (new_promise w))).
Proof.
  intros [= <-] w.
  assert (R : peer_ready w)
    by (apply drive_peer_ready; now apply peer_ready_disconnected).
  split; [exact R|]. intros St Cn m.
  destruct (_serverMessageHandler (transport w)) as [h|] eqn:Hs.
  - exists h. split; [reflexivity|]. unfold send. simpl. now rewrite St, Hs, Cn.
  - exfalso. apply (R Cn). exact Hs.
Qed.

(** The test suite's bridge after [start], [close] and a second [start]. *)
Lemma connected_peer_has_handler_witness :
  new_PseudoTransport (Some Test.server)
  = inr (mkTransport false Test.server false None None None None) /\
  peer_ready (drive [Do CallStart; Turn; Do CallClose; Turn; Do CallStart; Turn]
                (boot (mkTransport false Test.server false None None None None))).
Proof.
  split; [reflexivity|].
  exact (proj1 (connected_peer_has_handler Test.server
                  (mkTransport false Test.server false None None None None)
                  [Do CallStart; Turn; Do CallClose; Turn; Do CallStart; Turn] eq_refl)).
Defined.

(** ** Callbacks join the back of the timer queue *)

Lemma appends_refl (w : World) : appends w w.
Proof. exists []. now rewrite app_nil_r. Qed.

Lemma appends_trans {w1 w2 w3 : World} : appends w1 w2 -> appends w2 w3 -> appends w1 w3.
Proof.
  intros [l1 E1] [l2 E2]. exists (l1 ++ l2). rewrite E2, E1. now rewrite app_assoc.
Qed.

Lemma appends_same (w w' : World) : timers w' = timers w -> appends w w'.
Proof. intros E. exists []. now rewrite app_nil_r. Qed.

Lemma appends_one (w w' : World) (t : Timer) : timers w' = timers w ++ [t] -> appends w w'.
Proof. intros E. now exists [t]. Qed.

Lemma proxy_exec_appends (c : ProxyCall) (w : World) : appends w (Proxy.exec c w).
Proof.
  destruct c as [[h|]|m| |]; simpl; try (now apply appends_same).
  unfold Proxy.send. simpl. destruct (_clientMessageHandler (transport w)); simpl.
  - now apply (appends_one _ _ (DeliverToClient m)).
  - now apply appends_same.
Qed.

Lemma proxy_run_appends (cs : list ProxyCall) (w : World) : appends w (Proxy.run cs w).
Proof.
  revert w. induction cs as [|c cs IH]; intros w; simpl; [apply appends_refl|].
  exact (appends_trans (proxy_exec_appends c w) (IH _)).
Qed.

Lemma exec_appends (c : Call) (w : World) : appends w (exec c w).
Proof.
  destruct c as [pc|h|h|h| | |m]; simpl; try (now apply appends_same).
  - apply proxy_exec_appends.
  - unfold start. simpl. destruct (_started (transport w)); simpl;
      [now apply appends_same|].
    destruct (proxy_run_appends (connect_calls (_mcpServer (transport w)))
                (snd (new_promise w))) as [l E].
    exists l. exact E.
  - unfold close. simpl. destruct (_started (transport w)); simpl.
    + now apply (appends_one _ _ (CloseNotify (_clientCloseHandler (transport w)))).
    + now apply appends_same.
  - unfold send. simpl. destruct (_started (transport w)); simpl;
      [|now apply appends_same].
    destruct (_serverMessageHandler (transport w)) as [h|]; [|now apply appends_same].
    destruct (_isServerConnected (transport w)); [|now apply appends_same].
    now apply (appends_one _ _ (DeliverToServer h m (next_promise w))).
Qed.

Lemma run_calls_appends (cs : list Call) (w : World) : appends w (run_calls cs w).
Proof.
  revert w. induction cs as [|c cs IH]; intros w; simpl; [apply appends_refl|].
  exact (appends_trans (exec_appends c w) (IH _)).
Qed.

Lemma invoke_appends {A : Type} (ev : nat -> A -> Event) (h : Handler Call A) (a : A)
    (w : World) : appends w (fst (invoke ev h a w)).
Proof.
  rewrite invoke_world.
  exact (appends_trans (appends_same w (emit (ev (handler_id h) a) w) eq_refl)
           (run_calls_appends _ _)).
Qed.

Lemma report_error_appends (err : Js.Error) (w : World) :
  appends w (fst (report_error err w)).
Proof.
  unfold report_error. destruct (_clientErrorHandler (transport w)).
  - apply invoke_appends.
  - apply appends_refl.
Qed.

Ltac appends_after :=
  match goal with
  | |- context [invoke ?ev ?h ?a ?w] =>
      let X := fresh "X" in
      pose proof (@invoke_appends _ ev h a w) as X;
      destruct (invoke ev h a w) as [? [|?]]; simpl in X
  | |- context [report_error ?e ?w] =>
      let X := fresh "X" in
      pose proof (report_error_appends e w) as X;
      destruct (report_error e w) as [? [|?]]; simpl in X
  end.

Lemma run_timer_appends (t : Timer) (w : World) : appends w (run_timer t w).
Proof.
  destruct t as [m|p|[h|]|h m p]; simpl.
  - destruct (_clientMessageHandler (transport w)) as [h|].
    + appends_after; [exact X|]. appends_after.
      * exact (appends_trans X X0).
      * exact (appends_trans (appends_trans X X0) (appends_same _ _ eq_refl)).
    + appends_after; [exact X|].
      exact (appends_trans X (appends_same _ _ eq_refl)).
  - destruct (_serverMessageHandler (transport w)); now apply appends_same.
  - appends_after; [exact X|]. exact (appends_trans X (appends_same _ _ eq_refl)).
  - apply appends_refl.
  - appends_after; [exact (appends_trans X (appends_same _ _ eq_refl))|].
    appends_after; exact (appends_trans (appends_trans X X0) (appends_same _ _ eq_refl)).
Qed.



(** ** Turns on a bridge with nothing in the microtask queue *)

Lemma step_timer (w : World) (t : Timer) (rest : list Timer) :
  jobs w = [] -> timers w = t :: rest ->
  step w = Some (run_timer t (pop_timer rest w)).
Proof.
  intros J T. unfold step, promise_jobs. rewrite J. simpl. now rewrite J, T.
Qed.

Lemma turns_nothing_queued (n : nat) (w : World) :
  jobs w = [] -> timers w = [] -> turns n w = w.
Proof.
  intros J T. apply turns_quiescent. unfold step, promise_jobs. rewrite J. simpl.
  now rewrite J, T.
Qed.

Ltac next_timer t ts :=
  match goal with
  | |- context [turns 1 ?W] =>
      rewrite (turns_step (step_timer W t ts eq_refl eq_refl))
  end.

(** Looking up a promise that was fulfilled after the promise jobs of a
    turn, which may have fulfilled it before. *)
Ltac fulfilled_after_jobs P F :=
  unfold settlement; cbn -[Nat.eqb]; rewrite ?lookup_settlement_app, P;
  match goal with
  | |- context [lookup_settlement ?p ?l] =>
      let L := fresh "L" in
      destruct (lookup_settlement p l) eqn:L;
      [now rewrite (fulfils_fulfilled F L)|]
  end;
  cbn -[Nat.eqb]; decide_eqb; reflexivity.

(** The same across several turns. *)
Ltac lookup_fulfilled :=
  unfold settlement; cbn -[Nat.eqb]; rewrite ?lookup_settlement_app;
  repeat (cbn -[Nat.eqb]; decide_eqb;
          match goal with
          | H : lookup_settlement ?p ?l = None |- context [lookup_settlement ?p ?l] =>
              rewrite H
          | F : fulfils _ ?l |- context [lookup_settlement ?p ?l] =>
              let L := fresh "L" in
              destruct (lookup_settlement p l) eqn:L;
              [now rewrite (fulfils_fulfilled F L)|]
          end);
  cbn -[Nat.eqb]; decide_eqb; reflexivity.

(** ** Two requests in a row *)



(** X7 -- two requests sent one after the other.  On an idle, started bridge
    whose server handler answers [m1] with [r1] and [m2] with [r2] through
    the proxy, [send(m1)] followed by [send(m2)] reaches the responder in
    that order, in the next two turns, and both promises are fulfilled; the
    two answers are then queued in the same order, and the client's handler
    receives [r1] while [r2] is the next callback in the queue. *)
Theorem requests_answered_in_order (w : World) (hs hc : MessageHandler)
    (m1 m2 r1 r2 : JSONRPCMessage)
    (WF : well_formed w) (I : idle w)
    (St : _started (transport w) = true)
    (Cn : _isServerConnected (transport w) = true)
    (Hs : _serverMessageHandler (transport w) = Some hs)
    (Hc : _clientMessageHandler (transport w) = Some hc)
    (A1 : handler_body hs m1 = ([OnProxy (ProxySend r1)], Returns))
    (A2 : handler_body hs m2 = ([OnProxy (ProxySend r2)], Returns)) :
  let p1 := fst (send m1 w) in
  let p2 := fst (send m2 (snd (send m1 w))) in
  let w2 := turns 2 (snd (send m2 (snd (send m1 w)))) in
  let w3 := turns 1 w2 in
  log w2 = log w ++ [ServerReceived (handler_id hs) m1; ServerReceived (handler_id hs) m2] /\
  settlement p1 w2 = Some Fulfilled /\
  settlement p2 w2 = Some Fulfilled /\
  timers w2 = [DeliverToClient r1; DeliverToClient r2] /\
  exists rest added,
    log w3 = log w2 ++ ClientReceived (handler_id hc) r1 :: rest /\
    timers w3 = DeliverToClient r2 :: added.
Proof.
  intros p1 p2 w2 w3. destruct I as [T M].
  destruct (send_accepted m1 w hs WF St Cn Hs) as (Ep1 & Ea & _).
  assert (WFa : well_formed (snd (send m1 w)))
    by exact (grows_well_formed (send_grows m1 w) WF).
  assert (Sta : _started (transport (snd (send m1 w))) = true) by now rewrite send_transport.
  assert (Cna : _isServerConnected (transport (snd (send m1 w))) = true)
    by now rewrite send_transport.
  assert (Hsa : _serverMessageHandler (transport (snd (send m1 w))) = Some hs)
    by now rewrite send_transport.
  destruct (send_accepted m2 _ hs WFa Sta Cna Hsa) as (Ep2 & Eb & _).
  assert (P : lookup_settlement (next_promise w) (promises w) = None)
    by exact (well_formed_pending WF (le_n _)).
  assert (P' : lookup_settlement (S (next_promise w)) (promises w) = None)
    by (apply (well_formed_pending WF); lia).
  set (wab := snd (send m2 (snd (send m1 w)))) in *.
  assert (Eab : wab = mkWorld (transport w)
                        [DeliverToServer hs m1 (next_promise w);
                         DeliverToServer hs m2 (S (next_promise w))]
                        (jobs w) (promises w) (S (S (next_promise w))) (log w)).
  { subst wab. rewrite Eb, Ea. simpl. now rewrite T. }
  destruct (step_timer_spec wab (DeliverToServer hs m1 (next_promise w))
              [DeliverToServer hs m2 (S (next_promise w))]) as (l & F & _ & ES);
    [rewrite Eab; exact M|rewrite Eab; reflexivity|].
  assert (E2 : w2 =
    mkWorld (transport w) [DeliverToClient r1; DeliverToClient r2] []
      (((((promises w ++ l) ++ [(S (S (next_promise w)), Fulfilled)])
          ++ [(next_promise w, Fulfilled)])
         ++ [(S (S (S (next_promise w))), Fulfilled)])
        ++ [(S (next_promise w), Fulfilled)])
      (S (S (S (S (next_promise w)))))
      ((log w ++ [ServerReceived (handler_id hs) m1])
       ++ [ServerReceived (handler_id hs) m2])).
  { subst w2. rewrite turns_succ, (turns_step ES), Eab. cbn -[run_timer turns].
    erewrite answer_turn; [|exact Hc|exact A1]. cbn -[run_timer turns].
    next_timer (DeliverToServer hs m2 (S (next_promise w))) [DeliverToClient r1].
    cbn -[run_timer]. erewrite answer_turn; [|exact Hc|exact A2]. reflexivity. }
  clearbody wab.
  split; [rewrite E2; simpl; now rewrite <- app_assoc|].
  split; [subst p1; rewrite Ep1, E2; fulfilled_after_jobs P F|].
  split; [subst p2; rewrite Ep2, E2, Ea; fulfilled_after_jobs P' F|].
  split; [rewrite E2; reflexivity|].
  subst w3. rewrite E2.
  next_timer (DeliverToClient r1) [DeliverToClient r2].
  match goal with |- context [run_timer (DeliverToClient r1) ?w0] => set (w0' := w0) end.
  destruct (run_timer_appends (DeliverToClient r1) w0') as [added Ead].
  destruct (deliver_to_client_spec r1 w0') as [_ D].
  assert (Hc0 : _clientMessageHandler (transport w0') = Some hc) by exact Hc.
  rewrite Hc0 in D. simpl in D.
  exists (match snd (handler_body hc r1) with
          | Returns => []
          | Throws t =>
              match _clientErrorHandler (transport (fst (invoke ClientReceived hc r1 w0'))) with
              | None => []
              | Some eh =>
                  ClientError (handler_id eh) (delivery_error t)
                  :: match snd (handler_body eh (delivery_error t)) with
                     | Returns => []
                     | Throws t2 => [Uncaught t2]
                     end
              end
          end), added.
  split; [|exact Ead].
  destruct (snd (handler_body hc r1)) as [|t]; [exact D|].
  destruct (_clientErrorHandler (transport (fst (invoke ClientReceived hc r1 w0'))))
    as [eh|]; [|exact D].
  destruct (snd (handler_body eh (delivery_error t))); exact D.
Qed.

(** ** Deliveries in flight when [close] is called *)



(** X8 -- [close] does not retract a delivery towards the responder.  A
    request accepted before [close] is still delivered in the next turn, to
    the server handler captured by [send], although every slot has been
    cleared by then; the close notification comes after it.  If the handler
    returns, the promise of [send] is fulfilled.  If it throws without
    registering anything, the promise is rejected, and the client's error
    handler, cleared by [close], is not told. *)
Theorem accepted_send_survives_close (w : World) (h : MessageHandler) (m : JSONRPCMessage)
    (WF : well_formed w) (I : idle w)
    (St : _started (transport w) = true)
    (Cn : _isServerConnected (transport w) = true)
    (Hs : _serverMessageHandler (transport w) = Some h) :
  let p := fst (send m w) in
  let wc := snd (close (snd (send m w))) in
  let w1 := turns 1 wc in
  torn_down (transport wc) /\
  timers wc = [DeliverToServer h m p; CloseNotify (_clientCloseHandler (transport w))] /\
  (exists rest, log w1 = log w ++ ServerReceived (handler_id h) m :: rest) /\
  (exists added, timers w1 = CloseNotify (_clientCloseHandler (transport w)) :: added) /\
  match snd (handler_body h m) with
  | Returns => settlement p w1 = Some Fulfilled
  | Throws t =>
      fst (handler_body h m) = [] ->
      log w1 = log w ++ [ServerReceived (handler_id h) m] /\
      settlement p w1 = Some (Rejected (Js.ThrownError (delivery_error t)))
  end.
Proof.
  intros p wc w1. destruct I as [T M].
  destruct (send_accepted m w h WF St Cn Hs) as (Ep & Ea & Pa).
  subst p. rewrite !Ep.
  assert (Ec : wc = enqueue (ResolveThenable (S (next_promise w)))
                      (mkWorld (mkTransport false (_mcpServer (transport w)) false
                                  None None None None)
                         [DeliverToServer h m (next_promise w);
                          CloseNotify (_clientCloseHandler (transport w))]
                         (jobs w) (promises w) (S (S (next_promise w))) (log w))).
  { subst wc. rewrite Ea, close_started by exact St. simpl. now rewrite T. }
  destruct (step_timer_spec wc (DeliverToServer h m (next_promise w))
              [CloseNotify (_clientCloseHandler (transport w))]) as (l & F & _ & ES).
  { rewrite Ec, microtasks_enqueue; [exact M|reflexivity]. }
  { rewrite Ec. reflexivity. }
  assert (Np : ~ In (next_promise w) (thenables (jobs wc))).
  { rewrite Ec, thenables_enqueue_resolve. simpl. intros Hin. apply in_app_or in Hin.
    destruct Hin as [Hin|[E|[]]]; [exact (fresh_not_thenable WF (le_n _) Hin)|lia]. }
  set (w0 := mkWorld (transport wc) [CloseNotify (_clientCloseHandler (transport w))] []
               (promises wc ++ l) (next_promise wc) (log wc)) in *.
  assert (E1 : w1 = run_timer (DeliverToServer h m (next_promise w)) w0)
    by (subst w1; exact (turns_step ES)).
  assert (L0 : log w0 = log w) by (subst w0; rewrite Ec; reflexivity).
  assert (T0 : timers w0 = [CloseNotify (_clientCloseHandler (transport w))]) by reflexivity.
  assert (H0 : _clientErrorHandler (transport w0) = None)
    by (subst w0; rewrite Ec; reflexivity).
  assert (Hp : next_promise w < next_promise w0)
    by (subst w0; rewrite Ec; simpl; lia).
  assert (P0 : settlement (next_promise w) w0 = None).
  { apply (pending_after_jobs _ _ (ids := thenables (jobs wc))); [|exact F|exact Np].
    rewrite Ec. exact (well_formed_pending WF (le_n _)). }
  split; [rewrite Ec; repeat split|]. split; [rewrite Ec; reflexivity|].
  pose proof (deliver_to_server_spec h m (next_promise w) w0 Hp P0) as D.
  pose proof (run_timer_appends (DeliverToServer h m (next_promise w)) w0) as [added Ad].
  pose proof (invoke_world ServerReceived h m w0) as IW.
  clearbody w0. rewrite E1. simpl in D. rewrite L0 in D. split; [|split].
  - destruct (snd (handler_body h m)) as [|t]; [exists []; apply D|].
    destruct (_clientErrorHandler (transport (fst (invoke ServerReceived h m w0))))
      as [eh|]; [|exists []; apply D].
    destruct (snd (handler_body eh (delivery_error t))); eexists; apply D.
  - exists added. rewrite Ad, T0. reflexivity.
  - destruct (snd (handler_body h m)) as [|t]; [apply D|].
    intros Nil. rewrite IW, Nil in D. simpl in D. rewrite H0 in D. exact D.
Qed.

(** The test suite's bridge: a request is sent and the bridge closed at once;
    the echo handler still receives the request. *)
Lemma accepted_send_survives_close_witness :
  well_formed started_bridge /\ idle started_bridge /\
  _started (transport started_bridge) = true /\
  _isServerConnected (transport started_bridge) = true /\
  _serverMessageHandler (transport started_bridge) = Some Test.echo /\
  (exists rest,
     log (turns 1 (snd (close (snd (send Test.request started_bridge)))))
     = log started_bridge ++ ServerReceived (handler_id Test.echo) Test.request :: rest) /\
  settlement (fst (send Test.request started_bridge))
    (turns 1 (snd (close (snd (send Test.request started_bridge))))) = Some Fulfilled.
Proof.
  assert (WF : well_formed started_bridge) by concrete_well_formed.
  split; [exact WF|]. split; [split; reflexivity|]. split; [reflexivity|].
  split; [reflexivity|]. split; [reflexivity|].
  pose proof (accepted_send_survives_close started_bridge Test.echo Test.request WF
                (conj eq_refl eq_refl) eq_refl eq_refl eq_refl) as (_ & _ & L & _ & F).
  split; [exact L|exact F].
Defined.

(** X9 -- a delivery towards the client looks the handler up when it runs.
    The proxy's [send] only tests that a message handler is set; the queued
    callback calls whatever handler the slot holds one turn later.  If the
    client has replaced its handler meanwhile, the new one receives the
    message.  If the slot was emptied, the call fails with a [TypeError],
    which goes to the client's error handler.  If the transport was closed,
    both slots are empty and the message is dropped without a trace. *)
Theorem client_handler_read_at_delivery (w : World) (hc : MessageHandler)
    (m : JSONRPCMessage) (I : idle w)
    (Hc : _clientMessageHandler (transport w) = Some hc) :
  let w1 := snd (Proxy.send m w) in
  timers w1 = [DeliverToClient m] /\
  (forall hc', exists rest,
      log (turns 1 (set_onmessage (Some hc') w1))
      = log w ++ ClientReceived (handler_id hc') m :: rest) /\
  (forall eh, _clientErrorHandler (transport w) = Some eh ->
              exists rest,
                log (turns 1 (set_onmessage None w1))
                = log w ++ ClientError (handler_id eh) not_a_function :: rest) /\
  (_clientErrorHandler (transport w) = None ->
   log (turns 1 (set_onmessage None w1)) = log w) /\
  (_started (transport w) = true -> log (turns 1 (snd (close w1))) = log w).
Proof.
  intros w1. destruct I as [T M].
  assert (E1 : w1 = settle (next_promise w) Fulfilled
                      (setTimeout (DeliverToClient m) (snd (new_promise w))))
    by (subst w1; unfold Proxy.send; simpl; now rewrite Hc).
  split; [rewrite E1; simpl; now rewrite T|]. split; [|split; [|split]].
  - intros hc'.
    destruct (step_timer_spec (set_onmessage (Some hc') w1) (DeliverToClient m) [])
      as (l & _ & _ & ES); [rewrite E1; exact M|rewrite E1; simpl; now rewrite T|].
    rewrite (turns_step ES).
    match goal with
    | |- context [run_timer _ ?W] => destruct (deliver_to_client_spec m W) as [_ D]
    end.
    rewrite E1 in *. simpl in D.
    destruct (snd (handler_body hc' m)) as [|t]; [exists []; exact D|].
    match type of D with
    | match ?s with _ => _ end =>
        destruct s as [eh|]; [|exists []; exact D]
    end.
    destruct (snd (handler_body eh (delivery_error t))); eexists; exact D.
  - intros eh He.
    destruct (step_timer_spec (set_onmessage None w1) (DeliverToClient m) [])
      as (l & _ & _ & ES); [rewrite E1; exact M|rewrite E1; simpl; now rewrite T|].
    rewrite (turns_step ES).
    match goal with
    | |- context [run_timer _ ?W] => destruct (deliver_to_client_spec m W) as [_ D]
    end.
    rewrite E1 in *. simpl in D. rewrite He in D.
    destruct (snd (handler_body eh not_a_function)); eexists; exact D.
  - intros He.
    destruct (step_timer_spec (set_onmessage None w1) (DeliverToClient m) [])
      as (l & _ & _ & ES); [rewrite E1; exact M|rewrite E1; simpl; now rewrite T|].
    rewrite (turns_step ES).
    match goal with
    | |- context [run_timer _ ?W] => destruct (deliver_to_client_spec m W) as [_ D]
    end.
    rewrite E1 in *. simpl in D. rewrite He in D. exact D.
  - intros St.
    assert (St1 : _started (transport w1) = true) by (rewrite E1; exact St).
    assert (Ec : snd (close w1)
                 = enqueue (ResolveThenable (S (next_promise w)))
                     (mkWorld (mkTransport false (_mcpServer (transport w)) false
                                 None None None None)
                        [DeliverToClient m; CloseNotify (_clientCloseHandler (transport w))]
                        (jobs w) (promises w ++ [(next_promise w, Fulfilled)])
                        (S (S (next_promise w))) (log w))).
    { rewrite (close_started w1 St1), E1. simpl. now rewrite T. }
    destruct (step_timer_spec (snd (close w1)) (DeliverToClient m)
                [CloseNotify (_clientCloseHandler (transport w))]) as (l & _ & _ & ES).
    { rewrite Ec, microtasks_enqueue; [exact M|reflexivity]. }
    { rewrite Ec. reflexivity. }
    rewrite (turns_step ES), Ec. reflexivity.
Qed.

(** The test "calls onerror if client handler throws", with a different
    handler registered after the proxy has sent: that one receives the
    message. *)
Lemma client_handler_read_at_delivery_witness :
  idle Sample.client_fail_bridge /\
  _clientMessageHandler (transport Sample.client_fail_bridge) = Some Test.client_fail /\
  exists rest,
    log (turns 1 (set_onmessage (Some Test.collect)
                    (snd (Proxy.send Sample.hi Sample.client_fail_bridge))))
    = log Sample.client_fail_bridge
      ++ ClientReceived (handler_id Test.collect) Sample.hi :: rest.
Proof.
  split; [split; reflexivity|]. split; [reflexivity|].
  exact (proj1 (proj2 (client_handler_read_at_delivery Sample.client_fail_bridge
                         Test.client_fail Sample.hi (conj eq_refl eq_refl) eq_refl))
           Test.collect).
Defined.

(** The echo bridge of the test suite, two requests in a row. *)
Lemma requests_answered_in_order_witness :
  well_formed More.wired_bridge /\ idle More.wired_bridge /\
  _started (transport More.wired_bridge) = true /\
  _isServerConnected (transport More.wired_bridge) = true /\
  _serverMessageHandler (transport More.wired_bridge) = Some Test.echo /\
  _clientMessageHandler (transport More.wired_bridge) = Some Test.collect /\
  log (turns 2 (snd (send More.request2 (snd (send Test.request More.wired_bridge)))))
  = log More.wired_bridge
    ++ [ServerReceived (handler_id Test.echo) Test.request;
        ServerReceived (handler_id Test.echo) More.request2] /\
  timers (turns 2 (snd (send More.request2 (snd (send Test.request More.wired_bridge)))))
  = [DeliverToClient (Test.echo_response Test.request);
     DeliverToClient (Test.echo_response More.request2)].
Proof.
  assert (WF : well_formed More.wired_bridge) by concrete_well_formed.
  split; [exact WF|]. split; [split; reflexivity|]. split; [reflexivity|].
  split; [reflexivity|]. split; [reflexivity|]. split; [reflexivity|].
  pose proof (requests_answered_in_order More.wired_bridge Test.echo Test.collect
                Test.request More.request2
                (Test.echo_response Test.request) (Test.echo_response More.request2)
                WF (conj eq_refl eq_refl) eq_refl eq_refl eq_refl eq_refl eq_refl eq_refl)
    as (L & _ & _ & T & _).
  split; [exact L|exact T].
Defined.

(** ** The peer's registration *)

(** X10 -- the peer disconnects and reconnects through the proxy.  On a
    started transport, clearing the proxy's [onmessage] or calling the
    proxy's [close] makes every [send] fail with the peer-unavailable error;
    the proxy's [close] does so although the handler stays registered.
    Assigning a handler to the proxy's [onmessage] marks the peer connected
    again, whatever happened before, and [send] is accepted with that
    handler. *)
Theorem peer_disconnects_and_reconnects (w : World) (h : MessageHandler)
    (WF : well_formed w) (St : _started (transport w) = true) :
  refuses_peer_unavailable (Proxy.set_onmessage None w) /\
  refuses_peer_unavailable (snd (Proxy.close w)) /\
  Proxy.get_onmessage (snd (Proxy.close w)) = Proxy.get_onmessage w /\
  forall m,
    let w' := Proxy.set_onmessage (Some h) (snd (Proxy.close (Proxy.set_onmessage None w))) in
    settlement (fst (send m w')) (snd (send m w')) = None /\
    timers (snd (send m w')) = timers w ++ [DeliverToServer h m (fst (send m w'))].
Proof.
  split; [|split; [|split]].
  - apply send_refused_peer_unavailable; [|exact St|left; reflexivity].
    eapply grows_well_formed; [|exact WF]. apply grows_same; reflexivity.
  - apply send_refused_peer_unavailable; [|exact St|right; reflexivity].
    eapply grows_well_formed; [|exact WF]. eapply grows_one; reflexivity.
  - reflexivity.
  - intros m w'.
    assert (WF' : well_formed w').
    { subst w'. eapply grows_well_formed; [|exact WF].
      eapply grows_one; reflexivity. }
    destruct (send_accepted m w' h WF' St eq_refl eq_refl) as (Ep & Ea & P).
    rewrite Ep, Ea. split; [rewrite <- Ea; exact P|reflexivity].
Qed.

(** The test "rejects send if server not connected", with the handler cleared
    through the proxy. *)
Lemma peer_disconnects_and_reconnects_witness :
  well_formed started_bridge /\
  _started (transport started_bridge) = true /\
  refuses_peer_unavailable (Proxy.set_onmessage None started_bridge).
Proof.
  assert (WF : well_formed started_bridge) by concrete_well_formed.
  split; [exact WF|]. split; [reflexivity|].
  exact (proj1 (peer_disconnects_and_reconnects started_bridge Test.echo WF eq_refl)).
Defined.

(** ** Two calls of [start] before the first has resumed *)

(** X11 -- a second [start] issued before the first has resumed is not
    refused.  [_started] is set only when [start] resumes, so the second call
    passes the already-started test, calls the responder's [connect] again
    and is suspended behind the first; both promises are fulfilled in the
    next two turns and the transport is started. *)
Theorem overlapping_starts_both_succeed (w0 : World) (hs : MessageHandler)
    (WF : well_formed w0) (I : idle w0)
    (St : _started (transport w0) = false)
    (Srv : _mcpServer (transport w0) = mkServer [ProxySetOnMessage (Some hs)] Returns) :
  let p1 := fst (start w0) in
  let p2 := fst (start (snd (start w0))) in
  let wb := snd (start (snd (start w0))) in
  p1 <> p2 /\
  microtasks wb = [AfterConnect p1 Returns; AfterConnect p2 Returns] /\
  settlement p2 wb = None /\
  settlement p1 (turns 2 wb) = Some Fulfilled /\
  settlement p2 (turns 2 wb) = Some Fulfilled /\
  _started (transport (turns 2 wb)) = true.
Proof.
  intros p1 p2 wb. destruct I as [T M].
  assert (P : lookup_settlement (next_promise w0) (promises w0) = None)
    by exact (well_formed_pending WF (le_n _)).
  assert (P' : lookup_settlement (S (next_promise w0)) (promises w0) = None)
    by (apply (well_formed_pending WF); lia).
  assert (Ea : start w0 =
               (next_promise w0,
                await (AfterConnect (next_promise w0) Returns)
                  (Proxy.set_onmessage (Some hs) (snd (new_promise w0)))))
    by (unfold start; simpl; rewrite St, Srv; reflexivity).
  assert (Eb : start (snd (start w0)) =
               (S (next_promise w0),
                await (AfterConnect (S (next_promise w0)) Returns)
                  (Proxy.set_onmessage (Some hs) (snd (new_promise (snd (start w0)))))))
    by (rewrite Ea; unfold start; simpl; rewrite St, Srv; reflexivity).
  set (k1 := AfterConnect (next_promise w0) Returns).
  set (k2 := AfterConnect (S (next_promise w0)) Returns).
  assert (E1 : p1 = next_promise w0) by (subst p1; now rewrite Ea).
  assert (E2 : p2 = S (next_promise w0)) by (subst p2; now rewrite Eb).
  assert (Mb : microtasks wb = [k1; k2]).
  { subst wb. rewrite Eb, Ea. unfold microtasks in *. simpl.
    rewrite !continuations_app, M. reflexivity. }
  assert (Hb : _serverMessageHandler (transport wb) = Some hs)
    by (subst wb; rewrite Eb; reflexivity).
  assert (Pb : promises wb = promises w0) by (subst wb; rewrite Eb, Ea; reflexivity).
  clearbody wb p1 p2. subst p1 p2.
  destruct (step_continuation_spec wb k1 [k2] Mb) as (l & rest & F & C & _ & ES).
  match type of ES with _ = Some ?W => set (wA := W) in * end.
  assert (EA : wA = settle (next_promise w0) Fulfilled
                      (assign (with_started true)
                         (mkWorld (transport wb) (timers wb) rest (promises w0 ++ l)
                            (next_promise wb) (log wb))))
    by (subst wA; simpl; now rewrite Hb, Pb).
  clearbody wA.
  assert (MA : microtasks wA = [k2]) by (rewrite EA; exact C).
  destruct (step_continuation_spec wA k2 [] MA) as (l2 & rest2 & F2 & _ & _ & ES2).
  assert (ET : turns 2 wb
               = settle (S (next_promise w0)) Fulfilled
                   (assign (with_started true)
                      (mkWorld (transport wA) (timers wA) rest2 (promises wA ++ l2)
                         (next_promise wA) (log wA)))).
  { rewrite turns_succ, (turns_step ES), (turns_step ES2). simpl. rewrite EA. simpl.
    now rewrite Hb. }
  split; [lia|]. split; [exact Mb|]. split; [unfold settlement; rewrite Pb; exact P'|].
  rewrite ET, EA.
  split; [lookup_fulfilled|]. split; [lookup_fulfilled|reflexivity].
Qed.

(** The echo bridge of the test suite, [start] called twice at once. *)
Lemma overlapping_starts_both_succeed_witness :
  well_formed Sample.echo_bridge /\ idle Sample.echo_bridge /\
  _started (transport Sample.echo_bridge) = false /\
  _mcpServer (transport Sample.echo_bridge)
  = mkServer [ProxySetOnMessage (Some Test.echo)] Returns /\
  settlement 0 (turns 2 (snd (start (snd (start Sample.echo_bridge))))) = Some Fulfilled /\
  settlement 1 (turns 2 (snd (start (snd (start Sample.echo_bridge))))) = Some Fulfilled.
Proof.
  assert (WF : well_formed Sample.echo_bridge) by apply well_formed_boot.
  split; [exact WF|]. split; [split; reflexivity|]. split; [reflexivity|].
  split; [reflexivity|].
  pose proof (overlapping_starts_both_succeed Sample.echo_bridge Test.echo WF
                (conj eq_refl eq_refl) eq_refl eq_refl) as (_ & _ & _ & F1 & F2 & _).
  split; [exact F1|exact F2].
Defined.

(** ** Answers of the responder *)

(** The delivery of a request whose handler makes no call and returns. *)
Lemma silent_turn (w : World) (hs : MessageHandler) (m : JSONRPCMessage) (p : nat) :
  handler_body hs m = ([], Returns) ->
  run_timer (DeliverToServer hs m p) w
  = settle p Fulfilled (emit (ServerReceived (handler_id hs) m) w).
Proof. intros B. simpl. unfold invoke. now rewrite B. Qed.

(** X12 -- an answer sent while the client has no message handler is lost.
    On an idle, started bridge with no client message handler, a request is
    delivered to the server handler and the promise of [send] is fulfilled,
    but the answer the handler passes to the proxy is not queued: the bridge
    is idle again after that turn, and a handler the client registers
    afterwards never receives the answer. *)
Theorem answer_without_client_handler_is_lost (w : World) (hs : MessageHandler)
    (m r : JSONRPCMessage)
    (WF : well_formed w) (I : idle w)
    (St : _started (transport w) = true)
    (Cn : _isServerConnected (transport w) = true)
    (Hs : _serverMessageHandler (transport w) = Some hs)
    (Hc : _clientMessageHandler (transport w) = None)
    (Ans : handler_body hs m = ([OnProxy (ProxySend r)], Returns)) :
  let p := fst (send m w) in
  let w1 := turns 1 (snd (send m w)) in
  settlement p w1 = Some Fulfilled /\
  log w1 = log w ++ [ServerReceived (handler_id hs) m] /\
  idle w1 /\
  forall hc n, log (turns n (set_onmessage (Some hc) w1)) = log w1.
Proof.
  intros p w1. destruct I as [T M].
  destruct (send_accepted m w hs WF St Cn Hs) as (Ep & Ea & _).
  assert (P : lookup_settlement (next_promise w) (promises w) = None)
    by exact (well_formed_pending WF (le_n _)).
  destruct (step_timer_spec (snd (send m w)) (DeliverToServer hs m (next_promise w)) [])
    as (l & F & _ & ES); [rewrite Ea; exact M|rewrite Ea; simpl; now rewrite T|].
  assert (E1 : w1 = settle (next_promise w) Fulfilled
                      (settle (S (next_promise w)) Fulfilled
                         (mkWorld (transport w) [] [] (promises w ++ l)
                            (S (S (next_promise w)))
                            (log w ++ [ServerReceived (handler_id hs) m])))).
  { subst w1. rewrite (turns_step ES), Ea. simpl. unfold invoke. rewrite Ans. simpl.
    unfold Proxy.send. simpl. rewrite Hc. reflexivity. }
  subst p. rewrite Ep, E1. split; [fulfilled_after_jobs P F|].
  split; [reflexivity|]. split; [split; reflexivity|].
  intros hc n. now rewrite turns_nothing_queued.
Qed.

(** The echo bridge of the test suite without [onmessage]: the request is
    echoed to nobody. *)
Lemma answer_without_client_handler_is_lost_witness :
  well_formed started_bridge /\ idle started_bridge /\
  _started (transport started_bridge) = true /\
  _isServerConnected (transport started_bridge) = true /\
  _serverMessageHandler (transport started_bridge) = Some Test.echo /\
  _clientMessageHandler (transport started_bridge) = None /\
  handler_body Test.echo Test.request
  = ([OnProxy (ProxySend (Test.echo_response Test.request))], Returns) /\
  idle (turns 1 (snd (send Test.request started_bridge))) /\
  forall hc n,
    log (turns n (set_onmessage (Some hc) (turns 1 (snd (send Test.request started_bridge)))))
    = log (turns 1 (snd (send Test.request started_bridge))).
Proof.
  assert (WF : well_formed started_bridge) by concrete_well_formed.
  split; [exact WF|]. split; [split; reflexivity|]. split; [reflexivity|].
  split; [reflexivity|]. split; [reflexivity|]. split; [reflexivity|].
  split; [reflexivity|].
  pose proof (answer_without_client_handler_is_lost started_bridge Test.echo Test.request
                (Test.echo_response Test.request) WF (conj eq_refl eq_refl)
                eq_refl eq_refl eq_refl eq_refl eq_refl) as (_ & _ & Id & L).
  split; [exact Id|exact L].
Defined.

(** X13 -- the echo responder of the test suite.  On an idle, started bridge
    whose server handler is the mock's, every message is delivered and the
    promise of [send] fulfilled.  A message that has an [id] and a [method]
    comes back to the client's handler as the object with [jsonrpc] 2.0, the
    same [id], and the [params] of the message under [result.echoed].  Any
    other message is not answered: nothing is queued after its delivery. *)
Theorem echo_answers_requests_only (w : World) (hc : MessageHandler) (m : JSONRPCMessage)
    (WF : well_formed w) (I : idle w)
    (St : _started (transport w) = true)
    (Cn : _isServerConnected (transport w) = true)
    (Hs : _serverMessageHandler (transport w) = Some Test.echo)
    (Hc : _clientMessageHandler (transport w) = Some hc) :
  let p := fst (send m w) in
  let w1 := turns 1 (snd (send m w)) in
  let w2 := turns 1 w1 in
  settlement p w1 = Some Fulfilled /\
  log w1 = log w ++ [ServerReceived (handler_id Test.echo) m] /\
  if is_request m
  then exists rest,
         log w2 = log w1
                  ++ ClientReceived (handler_id hc)
                       [("jsonrpc", Js.Str "2.0");
                        ("id", Js.get "id" m);
                        ("result", Js.Object [("echoed", Js.get "params" m)])]
                     :: rest
  else idle w1 /\ w2 = w1.
Proof.
  intros p w1 w2. destruct (is_request m) eqn:Q.
  - assert (Ans : handler_body Test.echo m
                  = ([OnProxy (ProxySend (Test.echo_response m))], Returns)).
    { simpl. unfold is_request in Q. now rewrite Q. }
    exact (round_trip_when_started w Test.echo hc m (Test.echo_response m)
             WF I St Cn Hs Hc Ans).
  - assert (B : handler_body Test.echo m = ([], Returns)).
    { simpl. unfold is_request in Q. now rewrite Q. }
    destruct I as [T M].
    destruct (send_accepted m w Test.echo WF St Cn Hs) as (Ep & Ea & _).
    assert (P : lookup_settlement (next_promise w) (promises w) = None)
      by exact (well_formed_pending WF (le_n _)).
    destruct (step_timer_spec (snd (send m w))
                (DeliverToServer Test.echo m (next_promise w)) [])
      as (l & F & _ & ES); [rewrite Ea; exact M|rewrite Ea; simpl; now rewrite T|].
    assert (E1 : w1 = settle (next_promise w) Fulfilled
                        (mkWorld (transport w) [] [] (promises w ++ l)
                           (S (next_promise w))
                           (log w ++ [ServerReceived (handler_id Test.echo) m]))).
    { subst w1. rewrite (turns_step ES), (silent_turn _ Test.echo m _ B), Ea.
      reflexivity. }
    subst p w2. rewrite Ep, E1. split; [fulfilled_after_jobs P F|].
    split; [reflexivity|]. split; [split; reflexivity|].
    now apply turns_nothing_queued.
Qed.

(** The test "routes client message to server and receives response", and a
    notification on the same bridge. *)
Lemma echo_answers_requests_only_witness :
  well_formed More.wired_bridge /\ idle More.wired_bridge /\
  _started (transport More.wired_bridge) = true /\
  _isServerConnected (transport More.wired_bridge) = true /\
  _serverMessageHandler (transport More.wired_bridge) = Some Test.echo /\
  _clientMessageHandler (transport More.wired_bridge) = Some Test.collect /\
  is_request More.notification = false /\
  idle (turns 1 (snd (send More.notification More.wired_bridge))) /\
  log (turns 1 (snd (send More.notification More.wired_bridge)))
  = log More.wired_bridge ++ [ServerReceived (handler_id Test.echo) More.notification].
Proof.
  assert (WF : well_formed More.wired_bridge) by concrete_well_formed.
  split; [exact WF|]. split; [split; reflexivity|]. split; [reflexivity|].
  split; [reflexivity|]. split; [reflexivity|]. split; [reflexivity|].
  split; [reflexivity|].
  pose proof (echo_answers_requests_only More.wired_bridge Test.collect More.notification
                WF (conj eq_refl eq_refl) eq_refl eq_refl eq_refl eq_refl)
    as (_ & L & Id & _).
  split; [exact Id|exact L].
Defined.

(** ** [start] and [close] in the same turn *)

(** X14 -- [close] called while [start] is suspended does nothing.  The
    transport is not started until [start] resumes, so a [close] issued right
    behind [start] takes the not-started branch: it queues no notification
    and clears nothing, and when [start] resumes in the next turn the
    transport is started, with the client's handlers still in place. *)
Theorem close_during_start_is_ignored (w0 : World) (hs : MessageHandler)
    (WF : well_formed w0) (I : idle w0)
    (St : _started (transport w0) = false)
    (Srv : _mcpServer (transport w0) = mkServer [ProxySetOnMessage (Some hs)] Returns) :
  let p := fst (start w0) in
  let wb := snd (close (snd (start w0))) in
  quiet (snd (start w0)) wb /\
  timers wb = [] /\
  _started (transport (turns 1 wb)) = true /\
  settlement p (turns 1 wb) = Some Fulfilled /\
  idle (turns 1 wb) /\
  log (turns 1 wb) = log w0 /\
  client_side (transport (turns 1 wb))
  = (true, _mcpServer (transport w0), _clientMessageHandler (transport w0),
     _clientErrorHandler (transport w0), _clientCloseHandler (transport w0)).
Proof.
  intros p wb. destruct I as [T M].
  assert (P : lookup_settlement (next_promise w0) (promises w0) = None)
    by exact (well_formed_pending WF (le_n _)).
  assert (Ea : start w0 =
               (next_promise w0,
                await (AfterConnect (next_promise w0) Returns)
                  (Proxy.set_onmessage (Some hs) (snd (new_promise w0)))))
    by (unfold start; simpl; rewrite St, Srv; reflexivity).
  set (wa := snd (start w0)) in *.
  assert (Ewa : wa = await (AfterConnect (next_promise w0) Returns)
                       (Proxy.set_onmessage (Some hs) (snd (new_promise w0))))
    by (subst wa; now rewrite Ea).
  assert (Ep : p = next_promise w0) by (subst p; now rewrite Ea).
  assert (Sa : _started (transport wa) = false) by (rewrite Ewa; exact St).
  pose proof (close_stopped_quiet wa Sa) as Q. fold wb in Q.
  assert (Ewb : wb = enqueue (ResolveThenable (next_promise wa)) (snd (new_promise wa)))
    by (subst wb; now rewrite (close_stopped wa Sa)).
  assert (Mb : microtasks wb = [AfterConnect (next_promise w0) Returns]).
  { destruct Q as (_ & _ & -> & _). rewrite Ewa, microtasks_await. simpl.
    unfold microtasks in *. simpl. now rewrite M. }
  assert (Tb : timers wb = []) by (rewrite Ewb, Ewa; exact T).
  assert (Hb : _serverMessageHandler (transport wb) = Some hs)
    by (rewrite Ewb, Ewa; reflexivity).
  assert (Pb : promises wb = promises w0) by (rewrite Ewb, Ewa; reflexivity).
  assert (Lb : log wb = log w0) by (rewrite Ewb, Ewa; reflexivity).
  assert (Cb : client_side (transport wb) = client_side (transport w0))
    by (rewrite Ewb, Ewa; reflexivity).
  clearbody wb wa p. subst p.
  destruct (step_continuation_spec wb _ [] Mb) as (l & rest & F & C & _ & ES).
  rewrite (turns_step ES). simpl. rewrite Hb, Tb, Pb, Lb.
  split; [exact Q|]. split; [reflexivity|]. split; [reflexivity|].
  split; [exact (settle_fulfilled_after_jobs _ _ P F)|].
  split; [split; [reflexivity|exact C]|]. split; [reflexivity|].
  unfold client_side in *. simpl. congruence.
Qed.

(** The echo bridge of the test suite: [start()] and [close()] without
    waiting in between. *)
Lemma close_during_start_is_ignored_witness :
  well_formed Sample.echo_bridge /\ idle Sample.echo_bridge /\
  _started (transport Sample.echo_bridge) = false /\
  _mcpServer (transport Sample.echo_bridge)
  = mkServer [ProxySetOnMessage (Some Test.echo)] Returns /\
  _started (transport (turns 1 (snd (close (snd (start Sample.echo_bridge)))))) = true.
Proof.
  assert (WF : well_formed Sample.echo_bridge) by apply well_formed_boot.
  split; [exact WF|]. split; [split; reflexivity|]. split; [reflexivity|].
  split; [reflexivity|].
  exact (proj1 (proj2 (proj2 (close_during_start_is_ignored Sample.echo_bridge Test.echo
                                WF (conj eq_refl eq_refl) eq_refl eq_refl)))).
Defined.

(** X15 -- the notification of a [close] can arrive on a restarted
    transport.  When [start] is called right behind [close], it resumes
    before the queued notification runs: the transport is started again,
    with the responder's handler registered, when the captured close handler
    is called.  A close handler that calls [send] then gets its message
    accepted. *)
Theorem close_then_start_notifies_when_started (w : World) (hs : MessageHandler)
    (hc : CloseHandler)
    (I : idle w)
    (St : _started (transport w) = true)
    (Hc : _clientCloseHandler (transport w) = Some hc)
    (Srv : _mcpServer (transport w) = mkServer [ProxySetOnMessage (Some hs)] Returns) :
  let wb := snd (start (snd (close w))) in
  _started (transport (turns 1 wb)) = true /\
  timers (turns 1 wb) = [CloseNotify (Some hc)] /\
  microtasks (turns 1 wb) = [] /\
  (exists rest, log (turns 2 wb) = log w ++ ClientClosed (handler_id hc) :: rest) /\
  forall m, fst (handler_body hc tt) = [CallSend m] ->
            exists p, accepted_sends (turns 2 wb) = [DeliverToServer hs m p].
Proof.
  intros wb. destruct I as [T M].
  assert (Ec : snd (close w) =
               enqueue (ResolveThenable (next_promise w))
                 (mkWorld (mkTransport false (mkServer [ProxySetOnMessage (Some hs)] Returns)
                             false None None None None)
                    [CloseNotify (Some hc)] (jobs w) (promises w)
                    (S (next_promise w)) (log w))).
  { rewrite (close_started w St), Hc, Srv, T. reflexivity. }
  assert (Eb : wb = await (AfterConnect (S (next_promise w)) Returns)
                      (Proxy.set_onmessage (Some hs) (snd (new_promise (snd (close w))))))
    by (subst wb; rewrite Ec; reflexivity).
  assert (Mb : microtasks wb = [AfterConnect (S (next_promise w)) Returns]).
  { rewrite Eb, microtasks_await, Ec. unfold microtasks in *. simpl.
    rewrite continuations_app, M. reflexivity. }
  assert (Tb : timers wb = [CloseNotify (Some hc)]) by (rewrite Eb, Ec; reflexivity).
  assert (Lb : log wb = log w) by (rewrite Eb, Ec; reflexivity).
  assert (Nb : next_promise wb = S (S (next_promise w))) by (rewrite Eb, Ec; reflexivity).
  assert (Xb : transport wb
               = mkTransport false (mkServer [ProxySetOnMessage (Some hs)] Returns)
                   true None None None (Some hs)) by (rewrite Eb, Ec; reflexivity).
  clearbody wb.
  destruct (step_continuation_spec wb _ [] Mb) as (l & rest & F & C & _ & ES).
  assert (E1 : turns 1 wb =
               settle (S (next_promise w)) Fulfilled
                 (mkWorld (mkTransport true (mkServer [ProxySetOnMessage (Some hs)] Returns)
                             true None None None (Some hs))
                    [CloseNotify (Some hc)] rest (promises wb ++ l)
                    (S (S (next_promise w))) (log w))).
  { rewrite (turns_step ES). simpl. rewrite Xb, Tb, Lb, Nb. reflexivity. }
  split; [rewrite E1; reflexivity|]. split; [rewrite E1; reflexivity|].
  split; [rewrite E1; exact C|].
  rewrite (turns_succ 1 wb).
  destruct (step_timer_spec (turns 1 wb) (CloseNotify (Some hc)) []) as (l2 & _ & _ & ES2);
    [rewrite E1; exact C|rewrite E1; reflexivity|].
  rewrite (turns_step ES2), E1. cbn -[invoke].
  match goal with |- context [invoke closed_event hc tt ?w0] => set (w0' := w0) end.
  pose proof (invoke_log closed_event hc tt w0') as IL.
  pose proof (invoke_world closed_event hc tt w0') as IW.
  destruct (invoke closed_event hc tt w0') as [w2 c]. simpl in IL, IW.
  split.
  - destruct c; simpl; rewrite IL; [exists []|eexists]; unfold closed_event;
      rewrite <- ?app_assoc; reflexivity.
  - intros m B. rewrite B in IW. exists (S (S (next_promise w))).
    destruct c; simpl; rewrite IW; reflexivity.
Qed.

(** The test suite's bridge with a close handler that sends: closed and
    started again in one go, the handler's request is accepted. *)
Lemma close_then_start_notifies_when_started_witness :
  idle (Sample.started_with_onclose Sample.resend_on_close) /\
  _started (transport (Sample.started_with_onclose Sample.resend_on_close)) = true /\
  _clientCloseHandler (transport (Sample.started_with_onclose Sample.resend_on_close))
  = Some Sample.resend_on_close /\
  _mcpServer (transport (Sample.started_with_onclose Sample.resend_on_close))
  = mkServer [ProxySetOnMessage (Some Test.echo)] Returns /\
  exists p,
    accepted_sends
      (turns 2 (snd (start (snd (close (Sample.started_with_onclose
                                          Sample.resend_on_close))))))
    = [DeliverToServer Test.echo Test.request p].
Proof.
  split; [split; reflexivity|]. split; [reflexivity|]. split; [reflexivity|].
  split; [reflexivity|].
  exact (proj2 (proj2 (proj2 (proj2
           (close_then_start_notifies_when_started
              (Sample.started_with_onclose Sample.resend_on_close) Test.echo
              Sample.resend_on_close (conj eq_refl eq_refl) eq_refl eq_refl eq_refl))))
           Test.request eq_refl).
Defined.

(** ** A failed [start] *)

(** X16 -- a failed [start] does not undo what [connect] did.  When the
    responder registers its handler on the proxy and [connect] then fails,
    the transport is left not started, but the handler stays registered and
    the peer stays marked connected; [start] can be called again. *)
Theorem failed_start_keeps_registration (w0 : World) (hs : MessageHandler) (t : Js.Thrown)
    (WF : well_formed w0) (I : idle w0)
    (St : _started (transport w0) = false)
    (He : _clientErrorHandler (transport w0) = None)
    (Srv : _mcpServer (transport w0) = mkServer [ProxySetOnMessage (Some hs)] (Throws t)) :
  let p := fst (start w0) in
  let w1 := turns 1 (snd (start w0)) in
  settlement p w1 = Some (Rejected (Js.ThrownError (connect_error t))) /\
  _started (transport w1) = false /\
  _serverMessageHandler (transport w1) = Some hs /\
  _isServerConnected (transport w1) = true /\
  idle w1 /\
  settlement (fst (start w1)) (snd (start w1)) = None.
Proof.
  intros p w1. destruct I as [T M].
  assert (P : lookup_settlement (next_promise w0) (promises w0) = None)
    by exact (well_formed_pending WF (le_n _)).
  set (wa := snd (start w0)) in *.
  assert (Ea : wa = await (AfterConnect (next_promise w0) (Throws t))
                      (Proxy.set_onmessage (Some hs) (snd (new_promise w0))))
    by (subst wa; unfold start; simpl; rewrite St, Srv; reflexivity).
  assert (Ep : p = next_promise w0)
    by (subst p; unfold start; simpl; now rewrite St).
  assert (WFa : well_formed wa) by exact (grows_well_formed (start_grows w0) WF).
  assert (Ma : microtasks wa = [AfterConnect (next_promise w0) (Throws t)]).
  { rewrite Ea, microtasks_await. unfold microtasks in *. simpl. now rewrite M. }
  assert (Na : ~ In (next_promise w0) (thenables (jobs wa))).
  { rewrite Ea, thenables_await. exact (fresh_not_thenable WF (le_n _)). }
  destruct (step_continuation_spec wa _ [] Ma) as (l & rest & F & C & Tr & ES).
  set (wj := mkWorld (transport wa) (timers wa) rest (promises wa ++ l)
               (next_promise wa) (log wa)) in *.
  assert (WFj : well_formed wj) by exact (well_formed_after_jobs wa _ _ _ _ _ WFa F Tr).
  assert (E1 : w1 = settle (next_promise w0)
                      (Rejected (Js.ThrownError (connect_error t)))
                      (assign (with_started false) wj)).
  { subst w1. rewrite (turns_step ES). simpl. unfold report_error.
    replace (_clientErrorHandler (transport wj)) with (@None ErrorHandler)
      by (subst wj; rewrite Ea; simpl; now rewrite He).
    reflexivity. }
  assert (WF1 : well_formed w1).
  { rewrite E1. apply well_formed_settle; [|subst wj; rewrite Ea; simpl; lia].
    eapply grows_well_formed; [|exact WFj]. apply grows_same; reflexivity. }
  assert (S1 : _started (transport w1) = false) by (rewrite E1; reflexivity).
  clearbody w1 p. subst p. split.
  { rewrite E1. unfold settlement. subst wj. simpl.
    apply (settle_after_jobs _ _ _ (ids := thenables (jobs wa))); [|exact F|exact Na].
    rewrite Ea. exact P. }
  split; [exact S1|].
  split; [rewrite E1; subst wj; rewrite Ea; reflexivity|].
  split; [rewrite E1; subst wj; rewrite Ea; reflexivity|].
  split; [split; [rewrite E1; subst wj; rewrite Ea; exact T|rewrite E1; exact C]|].
  exact (proj1 (start_suspends w1 WF1 S1)).
Qed.

(** A new bridge to a responder that registers the echo handler and fails. *)
Lemma failed_start_keeps_registration_witness :
  well_formed (Test.fresh More.half_connected_server) /\
  idle (Test.fresh More.half_connected_server) /\
  _started (transport (Test.fresh More.half_connected_server)) = false /\
  _clientErrorHandler (transport (Test.fresh More.half_connected_server)) = None /\
  _mcpServer (transport (Test.fresh More.half_connected_server))
  = mkServer [ProxySetOnMessage (Some Test.echo)] (Throws (Js.ThrownError Sample.boom)) /\
  _started (transport (turns 1 (snd (start (Test.fresh More.half_connected_server))))) = false /\
  _isServerConnected
    (transport (turns 1 (snd (start (Test.fresh More.half_connected_server))))) = true.
Proof.
  assert (WF : well_formed (Test.fresh More.half_connected_server))
    by apply well_formed_boot.
  split; [exact WF|]. split; [split; reflexivity|]. split; [reflexivity|].
  split; [reflexivity|]. split; [reflexivity|].
  pose proof (failed_start_keeps_registration (Test.fresh More.half_connected_server)
                Test.echo (Js.ThrownError Sample.boom) WF (conj eq_refl eq_refl)
                eq_refl eq_refl eq_refl) as (_ & S1 & _ & C1 & _).
  split; [exact S1|exact C1].
Defined.
